(** * Verification of the parameter handling of the Non-Metric Space Library

    Source: similarity_search/include/params.h.

    The header defines two classes.  [AnyParams] is a pair of parallel
    vectors of strings (parameter names and their textual values).
    [AnyParamManager] wraps one [AnyParams] for a consumption pass: typed
    getters, an extraction of a sub-set, and a destructor that reports the
    parameters nobody asked for.

    The embedding is shallow.  Vectors are lists, [std::set<string>] is a
    [gset string], reference parameters that are written to are passed in
    and returned, and every routine runs in a small monad that collects the
    lines sent to the logger and stops at the first [LOG(FATAL)]. *)

From Stdlib Require Import ZArith Ascii String.
From stdpp Require Import base decidable option list gmap strings pretty.

Local Open Scope string_scope.
Local Open Scope list_scope.

(* The solvers of stdpp clear hypotheses that may already be gone. *)
Set Warnings "-clear-no-such-hyp".

(** ** Logging and fatal errors *)

Module Log.

Inductive Severity := INFO | ERROR | FATAL.

Record Line := { severity : Severity; text : string }.

(** The places of params.h that stream into [LOG(FATAL)], each with the
    values it streams.  The names are those of the error taxonomy of the
    specification; [message] gives the text the code writes. *)
Inductive Failure :=
| MalformedParameterError (token : string)            (* params.h:48 *)
| DuplicateParameterError (Name : string)             (* params.h:54 *)
| ParameterNotFoundError (Name : string)              (* params.h:73 *)
| LengthMismatch                                      (* params.h:89 *)
| UnknownParametersFound                              (* params.h:141 *)
| MissingRequiredParameterError (Name : string)       (* params.h:163 *)
| ParameterConversionError (s type_name : string).    (* params.h:180 *)

Definition message (f : Failure) : string :=
  match f with
  | MalformedParameterError token =>
      "Wrong format of the method argument: '" +:+ token +:+
      "' should be in the format: <Name>=<Value>"
  | DuplicateParameterError Name => "Duplicate parameter: " +:+ Name
  | ParameterNotFoundError Name => "Parameter not found: " +:+ Name
  | LengthMismatch => "Bug: different # of parameters and values"
  | UnknownParametersFound => "Unknown parameters found, aborting!"
  | MissingRequiredParameterError Name =>
      "Mandatory parameter: " +:+ Name +:+ " is missing!"
  | ParameterConversionError s type_name =>
      "Failed to convert value '" +:+ s +:+ "' from type: " +:+ type_name
  end.

(** How a routine ends: it returns, it is stopped by a fatal log line, or
    it indexes a vector out of its bounds (undefined behaviour in C++). *)
Inductive Outcome (A : Type) :=
| Returned (a : A)
| Aborted (f : Failure)
| OutOfBounds.
Global Arguments Returned {A} a.
Global Arguments Aborted {A} f.
Global Arguments OutOfBounds {A}.

(** A run: the lines logged, in order, and the outcome. *)
Record Run (A : Type) := mkRun { log : list Line; outcome : Outcome A }.
Global Arguments mkRun {A} log outcome.
Global Arguments log {A} r.
Global Arguments outcome {A} r.

Definition ret {A} (a : A) : Run A := mkRun [] (Returned a).

Definition bind {A B} (m : Run A) (k : A → Run B) : Run B :=
  match outcome m with
  | Returned a => mkRun (log m ++ log (k a)) (outcome (k a))
  | Aborted f => mkRun (log m) (Aborted f)
  | OutOfBounds => mkRun (log m) OutOfBounds
  end.

(** [LOG(INFO) << ...] and [LOG(ERROR) << ...]: one line, execution goes on. *)
Definition LOG (sev : Severity) (msg : string) : Run unit :=
  mkRun [{| severity := sev; text := msg |}] (Returned tt).

(** Modelled from the spec: the [LOG] macro of logging.h, which is not
    among the sources.  The specification (sections 6 and 7) says that a
    fatal-level trace is emitted and that it terminates the pass
    (process-fatal in the reference behaviour): nothing after a
    [LOG(FATAL)] statement is executed. *)
Definition LOG_FATAL {A} (f : Failure) : Run A :=
  mkRun [{| severity := FATAL; text := message f |}] (Aborted f).

Definition failed {A} (r : Run A) : Prop := ∃ f, outcome r = Aborted f.

(** Undefined behaviour: a vector indexed out of its bounds. *)
Definition undefined {A} : Run A := mkRun [] OutOfBounds.

(** [v[i]] on a vector read. *)
Definition at_index {A} (v : list A) (i : nat) : Run A :=
  match v !! i with
  | Some x => ret x
  | None => undefined
  end.

End Log.

Export Log.

Global Instance Run_ret : MRet Run := @Log.ret.
Global Instance Run_bind : MBind Run := λ A B k m, Log.bind m k.

(** ** AnyParams *)

Record AnyParams := mkAnyParams {
  ParamNames : list string;
  ParamValues : list string
}.

(** [AnyParams()] *)
Definition AnyParams_empty : AnyParams := mkAnyParams [] [].

(** [AnyParams(const vector<string>& Names, const vector<string>& Values)]:
    the two vectors are copied into the members, nothing is checked. *)
Definition AnyParams_Names_Values (Names Values : list string) : AnyParams :=
  mkAnyParams Names Values.

Section MethodDesc.

(** [SplitStr(str, res, SplitChar)] of utils.h fills [res] and returns a
    flag; here it returns the flag and the vector. *)
Variable SplitStr : string → ascii → bool * list string.

(** The body of the loop of [AnyParams(const vector<string>& MethodDesc)],
    from the token at hand to the end, with the local [seen] and the two
    members built so far. *)
Fixpoint MethodDesc_loop (MethodDesc : list string) (seen : gset string)
    (Names Values : list string) : Run AnyParams :=
  match MethodDesc with
  | [] => mret (mkAnyParams Names Values)
  | token :: rest =>
      let '(ok, OneParamPair) := SplitStr token "=" in
      if negb ok || negb (length OneParamPair =? 2)%nat
      then LOG_FATAL (MalformedParameterError token)
      else
        Name ← at_index OneParamPair 0;
        sVal ← at_index OneParamPair 1;
        if decide (Name ∈ seen)
        then LOG_FATAL (DuplicateParameterError Name)
        else MethodDesc_loop rest ({[Name]} ∪ seen)
               (Names ++ [Name]) (Values ++ [sVal])
  end.

(** [AnyParams(const vector<string>& MethodDesc)] *)
Definition AnyParams_MethodDesc (MethodDesc : list string) : Run AnyParams :=
  MethodDesc_loop MethodDesc ∅ [] [].

End MethodDesc.

(** Modelled from the spec: [SplitStr] of utils.h, which is not among the
    sources.  The specification says that a token is split on the
    separator and that a token with exactly one separator yields exactly
    two parts, the name and the value: the parts are the maximal runs
    between separators, so that n separators give n + 1 parts, and the
    call reports success. *)
Fixpoint split_on (SplitChar : ascii) (s : string) : list string :=
  match s with
  | EmptyString => [EmptyString]
  | String c s' =>
      if Ascii.eqb c SplitChar then EmptyString :: split_on SplitChar s'
      else match split_on SplitChar s' with
           | part :: parts => String c part :: parts
           | [] => [String c EmptyString]
           end
  end.

Definition SplitStr (s : string) (SplitChar : ascii) : bool * list string :=
  (true, split_on SplitChar s).

(** ** The types a parameter can be read as

    The member templates are instantiated at a [ParamType] that can be
    extracted from and inserted into a [stringstream]. *)

(** The state of [stringstream str(s)] after [str >> Value]: the value
    when the extraction succeeded ([None] when [failbit] is set), the
    characters left unread, and [eofbit]. *)
Record Extraction (T : Type) := mkExtraction {
  extracted : option T;
  unread : string;
  eofbit : bool
}.
Arguments mkExtraction {T} _ _ _.
Arguments extracted {T} _.
Arguments unread {T} _.
Arguments eofbit {T} _.

(** [operator>>] on a [stringstream] holding [s], and
    [typeid(Value).name()].  A stream sets [eofbit] only when a read ran
    into the end of its buffer, so nothing is left unread then. *)
Class IStream (T : Type) := {
  stream_in : string → Extraction T;
  type_name : string;
  eofbit_unread : ∀ s, eofbit (stream_in s) = true → unread (stream_in s) = ""
}.

(** What [AnyParams] and [AnyParamManager] use of a [ParamType]: the
    conversion from text, which has a primary template and a
    specialisation, and [operator<<]. *)
Class ParamType (T : Type) := {
  ConvertStrToValue : string → Run T;
  stream_out : T → string
}.

(** The primary template [AnyParamManager::ConvertStrToValue]. *)
Definition ConvertStrToValue_primary {T} `{IStream T} (s : string) : Run T :=
  let str := stream_in s in
  match extracted str with
  | None => LOG_FATAL (ParameterConversionError s type_name)
  | Some Value =>
      if negb (eofbit str)
      then LOG_FATAL (ParameterConversionError s type_name)
      else mret Value
  end.

Definition ParamType_primary {T} `{IStream T} (out : T → string) : ParamType T :=
  {| ConvertStrToValue := ConvertStrToValue_primary; stream_out := out |}.

(** The specialisation [AnyParamManager::ConvertStrToValue<string>]. *)
Definition ConvertStrToValue_string (str : string) : Run string := mret str.

Global Instance ParamType_string : ParamType string :=
  {| ConvertStrToValue := ConvertStrToValue_string; stream_out := λ s, s |}.

(** *** [int]

    Extraction of an [int] in the default (decimal, classic locale)
    state of a stream: white space is skipped, then an optional sign and
    the longest run of decimal digits are read; the extraction fails when
    there is no digit or the number does not fit 32 bits. *)
Module Int.

Definition isspace (c : ascii) : bool :=
  match nat_of_ascii c with
  | 9 | 10 | 11 | 12 | 13 | 32 => true
  | _ => false
  end.

Definition digit (c : ascii) : option Z :=
  let n := Z.of_nat (nat_of_ascii c) in
  if (48 <=? n)%Z && (n <=? 57)%Z then Some (n - 48)%Z else None.

Fixpoint skipws (s : string) : string :=
  match s with
  | String c s' => if isspace c then skipws s' else s
  | EmptyString => s
  end.

Fixpoint digits (acc : Z) (s : string) : Z * string :=
  match s with
  | String c s' =>
      match digit c with
      | Some d => digits (10 * acc + d)%Z s'
      | None => (acc, s)
      end
  | EmptyString => (acc, s)
  end.

Definition min : Z := (- 2 ^ 31)%Z.
Definition max : Z := (2 ^ 31 - 1)%Z.

Definition at_end (s : string) : bool :=
  match s with EmptyString => true | _ => false end.

Definition number (negative : bool) (s : string) : Extraction Z :=
  match s with
  | String c s' =>
      match digit c with
      | Some d =>
          let '(n, rest) := digits d s' in
          let v := if negative then (- n)%Z else n in
          mkExtraction
            (if (min <=? v)%Z && (v <=? max)%Z then Some v else None)
            rest (at_end rest)
      | None => mkExtraction None s false
      end
  | EmptyString => mkExtraction None s true
  end.

Definition extract (s : string) : Extraction Z :=
  match skipws s with
  | String "-" s' => number true s'
  | String "+" s' => number false s'
  | s' => number false s'
  end.

End Int.

(** [typeid(int).name()] is "i" with the Itanium ABI. *)
Global Instance IStream_int : IStream Z.
Proof.
  refine {| stream_in := Int.extract; type_name := "i" |}.
  intros s. unfold Int.extract.
  assert (∀ negative s', eofbit (Int.number negative s') = true →
                         unread (Int.number negative s') = "") as Hnumber.
  { intros negative s'. unfold Int.number. destruct s' as [|c s'']; [done|].
    destruct (Int.digit c) as [d|]; [|done].
    destruct (Int.digits d s'') as [n rest]. simpl. by destruct rest. }
  repeat case_match; apply Hnumber.
Defined.

(** [operator<<] on an [int] writes its decimal numeral. *)
Global Instance ParamType_int : ParamType Z := ParamType_primary pretty.

(** ** AnyParams::ChangeParam

    The object after the call and the run.  [Names] is the part of
    [ParamNames] from index [i] on. *)
Fixpoint ChangeParam_loop {T} `{ParamType T} (Name : string) (Value : T)
    (i : nat) (Names : list string) (this : AnyParams) : AnyParams * Run unit :=
  match Names with
  | [] => (this, LOG_FATAL (ParameterNotFoundError Name))
  | n :: rest =>
      if decide (Name = n) then
        let str := stream_out Value in
        if decide (i < length (ParamValues this))%nat
        then (mkAnyParams (ParamNames this) (<[i:=str]> (ParamValues this)),
              mret tt)
        else (this, undefined)
      else ChangeParam_loop Name Value (S i) rest this
  end.

Definition ChangeParam {T} `{ParamType T} (Name : string) (Value : T)
    (this : AnyParams) : AnyParams * Run unit :=
  ChangeParam_loop Name Value 0 (ParamNames this) this.

(** ** AnyParamManager *)

(** The manager holds a reference to the parameters, which none of its
    members writes through, and the set of the names seen. *)
Record AnyParamManager := mkAnyParamManager {
  params : AnyParams;
  seen : gset string
}.

(** [AnyParamManager(const AnyParams& params)] *)
Definition AnyParamManager_new (params : AnyParams) : Run AnyParamManager :=
  if negb (length (ParamNames params) =? length (ParamValues params))%nat
  then LOG_FATAL LengthMismatch
  else mret (mkAnyParamManager params ∅).

Section Manager.
Context {T : Type} `{ParamType T}.

(** The loop of [GetParam]; [Names] is the part of [ParamNames] from
    index [i] on.  There is no [break]: every entry is visited. *)
Fixpoint GetParam_loop (Name : string) (Values : list string) (i : nat)
    (Names : list string) (bFound : bool) (Value : T) : Run (bool * T) :=
  match Names with
  | [] => mret (bFound, Value)
  | n :: rest =>
      if decide (Name = n) then
        s ← at_index Values i;
        Value' ← ConvertStrToValue s;
        GetParam_loop Name Values (S i) rest true Value'
      else GetParam_loop Name Values (S i) rest bFound Value
  end.

(** The line of [LOG(INFO)] at the end of [GetParam]. *)
Definition trace (Name : string) (Value : T) : string :=
  "@@@ Parameter: " +:+ Name +:+ "=" +:+ stream_out Value +:+ " @@@".

(** [GetParam(Name, Value, bRequired)]: [Value] is passed by reference,
    so its value after the call is returned, with the manager after the
    call. *)
Definition GetParam (Name : string) (Value : T) (bRequired : bool)
    (this : AnyParamManager) : Run (T * AnyParamManager) :=
  '(bFound, Value') ← GetParam_loop Name (ParamValues (params this)) 0
                        (ParamNames (params this)) false Value;
  (if negb bFound && bRequired
   then LOG_FATAL (MissingRequiredParameterError Name)
   else mret tt);;
  LOG INFO (trace Name Value');;
  mret (Value', mkAnyParamManager (params this) ({[Name]} ∪ seen this)).

Definition GetParamRequired (Name : string) (Value : T)
    (this : AnyParamManager) : Run (T * AnyParamManager) :=
  GetParam Name Value true this.

Definition GetParamOptional (Name : string) (Value : T)
    (this : AnyParamManager) : Run (T * AnyParamManager) :=
  GetParam Name Value false this.

End Manager.

(** The loop of [ExtractParametersExcept], with the locals [names] and
    [values] and the member [seen]. *)
Fixpoint Extract_loop (except : gset string) (Values : list string) (i : nat)
    (Names : list string) (names values : list string) (seen : gset string)
    : Run (list string * list string * gset string) :=
  match Names with
  | [] => mret (names, values, seen)
  | name :: rest =>
      if decide (name ∉ except) then
        v ← at_index Values i;
        Extract_loop except Values (S i) rest
          (names ++ [name]) (values ++ [v]) ({[name]} ∪ seen)
      else Extract_loop except Values (S i) rest names values seen
  end.

(** [ExtractParametersExcept(ExceptList)]: the extracted parameters and
    the manager after the call. *)
Definition ExtractParametersExcept (ExceptList : list string)
    (this : AnyParamManager) : Run (AnyParams * AnyParamManager) :=
  let except : gset string := list_to_set ExceptList in
  '(names, values, seen') ← Extract_loop except (ParamValues (params this)) 0
                              (ParamNames (params this)) [] [] (seen this);
  mret (AnyParams_Names_Values names values,
        mkAnyParamManager (params this) seen').

(** The loop of the destructor. *)
Fixpoint destructor_loop (seen : gset string) (Names : list string)
    (bFail : bool) : Run bool :=
  match Names with
  | [] => mret bFail
  | Name :: rest =>
      if decide (Name ∉ seen) then
        LOG ERROR ("Unknown parameter: " +:+ Name);;
        destructor_loop seen rest true
      else destructor_loop seen rest bFail
  end.

(** [~AnyParamManager()] *)
Definition AnyParamManager_destructor (this : AnyParamManager) : Run unit :=
  bFail ← destructor_loop (seen this) (ParamNames (params this)) false;
  if (bFail : bool) then LOG_FATAL UnknownParametersFound else mret tt.

(** * The vocabulary of the statements *)

Section Tokens.
Variable split : string → ascii → bool * list string.

(** The token splits into exactly a name and a value. *)
Definition splits (token : string) (p : string * string) : Prop :=
  split token "=" = (true, [p.1; p.2]).

Definition malformed (token : string) : Prop := ∀ p, ¬ splits token p.

(** The first token that is refused, if any: every token before it
    splits, and the names before it are distinct. *)
Definition first_offender (tokens pre : list string) (token : string)
    (pairs : list (string * string)) : Prop :=
  ∃ post, tokens = pre ++ token :: post ∧
    Forall2 splits pre pairs ∧ NoDup pairs.*1 ∧
    (malformed token ∨ ∃ p, splits token p ∧ p.1 ∈ pairs.*1).

End Tokens.

(** The number of occurrences of a character in a string. *)
Fixpoint occurrences (c : ascii) (s : string) : nat :=
  match s with
  | EmptyString => 0
  | String c' s' => (if Ascii.eqb c' c then 1 else 0) + occurrences c s'
  end.

(** The name of a token: what stands before its first '='. *)
Fixpoint name_of (token : string) : string :=
  match token with
  | EmptyString => EmptyString
  | String c s => if Ascii.eqb c "=" then EmptyString else String c (name_of s)
  end.

(** The value of a token: what stands after its first '='. *)
Fixpoint value_of (token : string) : string :=
  match token with
  | EmptyString => EmptyString
  | String c s => if Ascii.eqb c "=" then s else value_of s
  end.

(** The name/value pairs of a parameter set, in order, each written as a
    token again. *)
Definition read_back (ps : AnyParams) : list string :=
  zip_with (λ Name sVal, Name +:+ "=" +:+ sVal) (ParamNames ps) (ParamValues ps).

(** The names of the managed parameters that are not in [seen], in the
    order of the parameters. *)
Definition unknown (this : AnyParamManager) : list string :=
  filter (λ Name, Name ∉ seen this) (ParamNames (params this)).

Definition unknown_line (Name : string) : Line :=
  {| severity := ERROR; text := "Unknown parameter: " +:+ Name |}.

(** What [GetParam] does after its loop has ended with a value found. *)
Definition resolved {T} `{ParamType T} (Name : string) (Value : T)
    (this : AnyParamManager) : Run (T * AnyParamManager) :=
  mkRun [{| severity := INFO; text := trace Name Value |}]
    (Returned (Value, mkAnyParamManager (params this) ({[Name]} ∪ seen this))).

(** The entries of a parameter set whose name is not on the list, in the
    order of the set. *)
Definition kept (ExceptList : list string) (ps : AnyParams)
    : list (string * string) :=
  filter (λ entry, entry.1 ∉ ExceptList) (zip (ParamNames ps) (ParamValues ps)).

(** * Properties *)

(** ** The monad of runs *)

Lemma Run_eta {A} (r : Run A) : mkRun (log r) (outcome r) = r.
Proof. by destruct r. Qed.

Lemma bind_mret {A B} (a : A) (k : A → Run B) : (mret a ≫= k) = k a.
Proof. unfold mbind, Run_bind, Log.bind. simpl. apply Run_eta. Qed.

Lemma bind_LOG_FATAL {A B} (f : Failure) (k : A → Run B) :
  (LOG_FATAL f ≫= k) = LOG_FATAL f.
Proof. reflexivity. Qed.

Lemma bind_undefined {A B} (k : A → Run B) : (undefined ≫= k) = undefined.
Proof. reflexivity. Qed.

Lemma bind_LOG {B} sev msg (k : unit → Run B) :
  (LOG sev msg ≫= k) =
  mkRun ({| severity := sev; text := msg |} :: log (k tt)) (outcome (k tt)).
Proof. reflexivity. Qed.

Lemma bind_assoc {A B C} (m : Run A) (f : A → Run B) (g : B → Run C) :
  ((m ≫= f) ≫= g) = (m ≫= λ a, f a ≫= g).
Proof.
  unfold mbind, Run_bind, Log.bind.
  destruct m as [l [a| |]]; simpl; [|done..].
  destruct (f a) as [l' [b| |]]; simpl; [|done..].
  by rewrite app_assoc.
Qed.

Lemma bind_ext {A B} (m : Run A) (f g : A → Run B) :
  (∀ a, f a = g a) → (m ≫= f) = (m ≫= g).
Proof.
  intros Hfg. unfold mbind, Run_bind, Log.bind.
  destruct m as [l [a| |]]; simpl; [|done..]. by rewrite Hfg.
Qed.

Lemma bind_Returned {A B} (m : Run A) (k : A → Run B) b :
  outcome (m ≫= k) = Returned b →
  ∃ a, outcome m = Returned a ∧ outcome (k a) = Returned b.
Proof.
  unfold mbind, Run_bind, Log.bind.
  destruct m as [l [a| |]]; simpl; [|done..]. by exists a.
Qed.

Lemma bind_Aborted_run {A B} (m : Run A) (k : A → Run B) f :
  outcome m = Aborted f → (m ≫= k) = mkRun (log m) (Aborted f).
Proof. unfold mbind, Run_bind, Log.bind. by intros ->. Qed.

Lemma at_index_Some {A} (v : list A) i x : v !! i = Some x → at_index v i = mret x.
Proof. unfold at_index. by intros ->. Qed.

Lemma at_index_cons {A} (x : A) (v : list A) i : at_index (x :: v) (S i) = at_index v i.
Proof. reflexivity. Qed.

Lemma at_index_0 {A} (x : A) (v : list A) : at_index (x :: v) 0 = mret x.
Proof. reflexivity. Qed.

Lemma at_index_None {A} (v : list A) i : v !! i = None → at_index v i = undefined.
Proof. unfold at_index. by intros ->. Qed.

Lemma outcome_mret {A} (a : A) : outcome (mret a) = Returned a.
Proof. reflexivity. Qed.

Lemma outcome_LOG_FATAL {A} f : outcome (LOG_FATAL (A:=A) f) = Aborted f.
Proof. reflexivity. Qed.

Lemma mret_inj {A} (a b : A) : mret (M:=Run) a = mret b → a = b.
Proof. by injection 1. Qed.

(** Reduction leaves the monad's operations folded, so that the lemmas
    above apply. *)
Opaque mbind mret.

(** ** Construction from tokens *)

Section MethodDesc_facts.
Variable split : string → ascii → bool * list string.

Lemma splits_or_malformed token : (∃ p, splits split token p) ∨ malformed split token.
Proof.
  unfold malformed, splits.
  destruct (split token "=") as [[] [|n [|v [|x l]]]];
    try (right; intros p; congruence).
  left. by exists (n, v).
Qed.

Lemma loop_malformed token rest seen Names Values :
  malformed split token →
  MethodDesc_loop split (token :: rest) seen Names Values
  = LOG_FATAL (MalformedParameterError token).
Proof.
  intros Hbad. simpl.
  destruct (split token "=") as [ok l] eqn:E.
  destruct ok; [|done].
  destruct l as [|n [|v [|x l]]]; try done.
  by destruct (Hbad (n, v)).
Qed.

Lemma loop_duplicate token p rest seen Names Values :
  splits split token p → p.1 ∈ seen →
  MethodDesc_loop split (token :: rest) seen Names Values
  = LOG_FATAL (DuplicateParameterError p.1).
Proof.
  intros Hs Hin. simpl. rewrite Hs. simpl.
  rewrite at_index_0, bind_mret, at_index_cons, at_index_0, bind_mret.
  by rewrite decide_True.
Qed.

Lemma loop_push_back token p rest seen Names Values :
  splits split token p → p.1 ∉ seen →
  MethodDesc_loop split (token :: rest) seen Names Values
  = MethodDesc_loop split rest ({[p.1]} ∪ seen) (Names ++ [p.1]) (Values ++ [p.2]).
Proof.
  intros Hs Hin. simpl. rewrite Hs. simpl.
  rewrite at_index_0, bind_mret, at_index_cons, at_index_0, bind_mret.
  by rewrite decide_False.
Qed.

(** A run of tokens that split, with names that are new and distinct, is
    pushed onto the two vectors. *)
Lemma loop_accepts pre pairs rest seen Names Values :
  Forall2 (splits split) pre pairs → NoDup pairs.*1 →
  (∀ n, n ∈ pairs.*1 → n ∉ seen) →
  MethodDesc_loop split (pre ++ rest) seen Names Values
  = MethodDesc_loop split rest (list_to_set pairs.*1 ∪ seen)
      (Names ++ pairs.*1) (Values ++ pairs.*2).
Proof.
  intros Hall. revert seen Names Values.
  induction Hall as [|token p pre pairs Hs Hall IH]; intros seen Names Values Hnd Hnew.
  - simpl. rewrite !app_nil_r. f_equal. set_solver.
  - rewrite fmap_cons in Hnd. apply NoDup_cons in Hnd as [Hp Hnd].
    rewrite <- app_comm_cons, (loop_push_back _ p); [|done|].
    2:{ apply Hnew. rewrite fmap_cons. left. }
    rewrite IH; [|done|].
    2:{ intros n Hn. rewrite not_elem_of_union. split.
        - rewrite elem_of_singleton. intros ->. done.
        - apply Hnew. rewrite fmap_cons. by right. }
    rewrite !fmap_cons, <- !app_assoc. simpl. f_equal.
    set_solver.
Qed.

(** Conversely, a loop that returns has pushed every token. *)
Lemma loop_returned tokens seen Names Values ps :
  outcome (MethodDesc_loop split tokens seen Names Values) = Returned ps →
  ∃ pairs, Forall2 (splits split) tokens pairs ∧ NoDup pairs.*1 ∧
    (∀ n, n ∈ pairs.*1 → n ∉ seen) ∧
    ps = mkAnyParams (Names ++ pairs.*1) (Values ++ pairs.*2).
Proof.
  revert seen Names Values.
  induction tokens as [|token rest IH]; intros seen Names Values Hret.
  - exists []. simpl in Hret. rewrite outcome_mret in Hret.
    injection Hret as <-. simpl. rewrite !app_nil_r.
    split_and!; [constructor|apply NoDup_nil_2| |done].
    intros n Hn%elem_of_nil. destruct Hn.
  - destruct (splits_or_malformed token) as [[p Hs]|Hbad].
    2:{ by rewrite loop_malformed in Hret. }
    destruct (decide (p.1 ∈ seen)) as [Hin|Hin].
    { by rewrite (loop_duplicate _ p) in Hret. }
    rewrite (loop_push_back _ p) in Hret by done.
    apply IH in Hret as (pairs & Hall & Hnd & Hnew & ->).
    exists (p :: pairs). rewrite !fmap_cons, <- !app_assoc. simpl.
    split_and!; [by constructor| |intros n|done].
    + apply NoDup_cons. split; [|done].
      intros Hp. apply Hnew in Hp. set_solver.
    + rewrite elem_of_cons. intros [->|Hn]; [done|].
      apply Hnew in Hn. set_solver.
Qed.

Lemma MethodDesc_returned tokens ps :
  outcome (AnyParams_MethodDesc split tokens) = Returned ps →
  ∃ pairs, Forall2 (splits split) tokens pairs ∧ NoDup pairs.*1 ∧
    ps = mkAnyParams pairs.*1 pairs.*2.
Proof.
  intros Hret. apply loop_returned in Hret as (pairs & ? & ? & _ & ->).
  by exists pairs.
Qed.

Lemma MethodDesc_accepts tokens pairs rest :
  Forall2 (splits split) tokens pairs → NoDup pairs.*1 →
  AnyParams_MethodDesc split (tokens ++ rest)
  = MethodDesc_loop split rest (list_to_set pairs.*1) pairs.*1 pairs.*2.
Proof.
  intros Hall Hnd. unfold AnyParams_MethodDesc.
  rewrite (loop_accepts _ pairs); [|done|done|set_solver].
  f_equal. set_solver.
Qed.

Lemma MethodDesc_accepts_all tokens pairs :
  Forall2 (splits split) tokens pairs → NoDup pairs.*1 →
  AnyParams_MethodDesc split tokens = mret (mkAnyParams pairs.*1 pairs.*2).
Proof.
  intros Hall Hnd.
  by rewrite <- (app_nil_r tokens), (MethodDesc_accepts _ pairs).
Qed.

End MethodDesc_facts.

Section MethodDesc_outcomes.
Variable split : string → ascii → bool * list string.

Lemma splits_functional token p q : splits split token p → splits split token q → p = q.
Proof.
  unfold splits. intros -> [= H1 H2].
  destruct p, q. simpl in *. congruence.
Qed.

Lemma Forall2_splits_functional tokens pairs pairs' :
  Forall2 (splits split) tokens pairs → Forall2 (splits split) tokens pairs' →
  pairs = pairs'.
Proof.
  intros Hall. revert pairs'.
  induction Hall as [|token p tokens pairs Hs Hall IH]; intros pairs' Hall'.
  - by inversion Hall'.
  - inversion Hall' as [|? q ? qs Hs' Hrest]; subst.
    f_equal; [by eapply splits_functional|by apply IH].
Qed.

Lemma accepted_or_first_offender tokens :
  (∃ pairs, Forall2 (splits split) tokens pairs ∧ NoDup pairs.*1) ∨
  (∃ pre token pairs, first_offender split tokens pre token pairs).
Proof.
  induction tokens as [|token tokens IH] using rev_ind.
  - left. exists []. split; constructor.
  - destruct IH as [(pairs & Hall & Hnd)|(pre & t & pairs & post & -> & Hoff)].
    2:{ right. exists pre, t, pairs, (post ++ [token]).
        split; [|done]. by rewrite <- app_assoc. }
    destruct (splits_or_malformed split token) as [[p Hs]|Hbad].
    2:{ right. exists tokens, token, pairs, []. eauto. }
    destruct (decide (p.1 ∈ pairs.*1)) as [Hin|Hin].
    { right. exists tokens, token, pairs, []. split_and!; eauto. }
    left. exists (pairs ++ [p]). split.
    + apply Forall2_app; [done|]. by repeat constructor.
    + rewrite fmap_app. apply NoDup_app. split_and!; [done| |].
      * intros n Hn ->%list_elem_of_singleton. done.
      * apply NoDup_singleton.
Qed.

Lemma first_offender_aborts tokens pre token pairs :
  first_offender split tokens pre token pairs →
  (malformed split token ∧
   AnyParams_MethodDesc split tokens = LOG_FATAL (MalformedParameterError token)) ∨
  (∃ p, splits split token p ∧ p.1 ∈ pairs.*1 ∧
   AnyParams_MethodDesc split tokens = LOG_FATAL (DuplicateParameterError p.1)).
Proof.
  intros (post & -> & Hall & Hnd & Hoff).
  rewrite (MethodDesc_accepts _ _ pairs) by done.
  destruct Hoff as [Hbad|(p & Hs & Hin)].
  - left. split; [done|]. by apply loop_malformed.
  - right. exists p. split_and!; [done..|].
    apply loop_duplicate; [done|]. by apply elem_of_list_to_set.
Qed.

Lemma all_split_or_malformed tokens :
  (∃ token, token ∈ tokens ∧ malformed split token) ∨
  (∃ pairs, Forall2 (splits split) tokens pairs).
Proof.
  induction tokens as [|token tokens IH].
  - right. exists []. constructor.
  - destruct (splits_or_malformed split token) as [[p Hs]|Hbad].
    2:{ left. exists token. split; [left|done]. }
    destruct IH as [(t & Hin & Hbad)|[pairs Hall]].
    + left. exists t. split; [by right|done].
    + right. exists (p :: pairs). by constructor.
Qed.

Lemma first_offender_fails tokens pre token pairs :
  first_offender split tokens pre token pairs →
  failed (AnyParams_MethodDesc split tokens).
Proof.
  intros [[_ ->]|(p & _ & _ & ->)]%first_offender_aborts; by eexists.
Qed.

Lemma duplicate_offender_not_NoDup pre token post pairs p all :
  Forall2 (splits split) pre pairs → splits split token p → p.1 ∈ pairs.*1 →
  Forall2 (splits split) (pre ++ token :: post) all → ¬ NoDup all.*1.
Proof.
  intros Hpre Hs Hin Hall Hnd.
  apply Forall2_app_inv_l in Hall as (pairs' & rest & Hpre' & Hrest & ->).
  apply Forall2_cons_inv_l in Hrest as (p' & rest' & Hs' & _ & ->).
  rewrite (Forall2_splits_functional _ _ _ Hpre' Hpre) in Hnd.
  rewrite (splits_functional _ _ _ Hs' Hs) in Hnd.
  rewrite fmap_app, fmap_cons in Hnd.
  apply NoDup_app in Hnd as (_ & Hdisj & _).
  apply (Hdisj _ Hin). left.
Qed.

Lemma malformed_not_accepted tokens token pairs :
  token ∈ tokens → malformed split token → ¬ Forall2 (splits split) tokens pairs.
Proof.
  intros Hin Hbad Hall.
  apply list_elem_of_lookup in Hin as [i Hi].
  destruct (Forall2_lookup_l _ _ _ _ _ Hall Hi) as (p & _ & Hs).
  by apply (Hbad p).
Qed.

End MethodDesc_outcomes.

(** C4.  The constructor goes through the tokens, each in its turn, in
    input order and stops at the first one it refuses: when every token
    before it has been pushed and the token does not split on '=' into
    exactly a name and a value, the construction fails with the
    MalformedParameterError of that token; when it splits and its name is
    the name of an earlier token, the construction fails with the
    DuplicateParameterError of that name, whatever the values.  When every
    token splits and the names are distinct, the names and the values are
    pushed in input order; the construction returns in that case only, and
    fails exactly when some token does not split or a name occurs twice. *)
Theorem MethodDesc_first_offender_decides
    (split : string → ascii → bool * list string) (tokens : list string) :
  (∀ pre token post ps,
     tokens = pre ++ token :: post →
     AnyParams_MethodDesc split pre = mret ps →
     (malformed split token →
      AnyParams_MethodDesc split tokens
      = LOG_FATAL (MalformedParameterError token)) ∧
     (∀ p, splits split token p → p.1 ∈ ParamNames ps →
      AnyParams_MethodDesc split tokens
      = LOG_FATAL (DuplicateParameterError p.1))) ∧
  (∀ pairs, Forall2 (splits split) tokens pairs → NoDup pairs.*1 →
     AnyParams_MethodDesc split tokens = mret (mkAnyParams pairs.*1 pairs.*2)) ∧
  (∀ ps, outcome (AnyParams_MethodDesc split tokens) = Returned ps →
     NoDup (ParamNames ps) ∧
     ∃ pairs, Forall2 (splits split) tokens pairs ∧
       ps = mkAnyParams pairs.*1 pairs.*2) ∧
  (failed (AnyParams_MethodDesc split tokens) ↔
     (∃ token, token ∈ tokens ∧ malformed split token) ∨
     (∃ pairs, Forall2 (splits split) tokens pairs ∧ ¬ NoDup pairs.*1)).
Proof.
  split_and!.
  - intros pre token post ps -> Hpre.
    assert (outcome (AnyParams_MethodDesc split pre) = Returned ps) as Hret
      by by rewrite Hpre.
    apply MethodDesc_returned in Hret as (pairs & Hall & Hnd & ->).
    rewrite (MethodDesc_accepts _ _ pairs) by done. split.
    + intros Hbad. by apply loop_malformed.
    + intros p Hs Hin. apply loop_duplicate; [done|].
      by apply elem_of_list_to_set.
  - apply MethodDesc_accepts_all.
  - intros ps Hret.
    apply MethodDesc_returned in Hret as (pairs & Hall & Hnd & ->). eauto.
  - split.
    + intros [f Hf].
      destruct (accepted_or_first_offender split tokens)
        as [(pairs & Hall & Hnd)|(pre & token & pairs & Hoff)].
      { by rewrite (MethodDesc_accepts_all _ _ pairs) in Hf. }
      destruct (all_split_or_malformed split tokens) as [Hbad|[all Hall]];
        [by left|].
      destruct Hoff as (post & -> & Hpre & Hnd & [Hbad|(p & Hs & Hin)]).
      * destruct (malformed_not_accepted split (pre ++ token :: post) token all);
          [|done..].
        apply elem_of_app. right. left.
      * right. exists all. split; [done|].
        by apply (duplicate_offender_not_NoDup split pre token post pairs p all).
    + intros Hwhy.
      destruct (accepted_or_first_offender split tokens)
        as [(pairs & Hall & Hnd)|(pre & token & pairs & Hoff)];
        [|by eapply first_offender_fails].
      destruct Hwhy as [(token & Hin & Hbad)|(all & Hall' & Hdup)].
      * by destruct (malformed_not_accepted split tokens token pairs).
      * by rewrite (Forall2_splits_functional _ _ _ _ Hall' Hall) in Hdup.
Qed.

Lemma malformed_SplitStr_b : malformed SplitStr "b".
Proof. intros p. unfold splits. cbv. discriminate. Qed.

Lemma MethodDesc_first_offender_witness :
  AnyParams_MethodDesc SplitStr ["a=1"; "a=2"; "b"]
  = LOG_FATAL (DuplicateParameterError "a") ∧
  AnyParams_MethodDesc SplitStr ["a=1"; "b"; "a=2"]
  = LOG_FATAL (MalformedParameterError "b") ∧
  AnyParams_MethodDesc SplitStr ["a=1"; "b=2"]
  = mret (mkAnyParams ["a"; "b"] ["1"; "2"]).
Proof.
  split_and!.
  - apply (proj2 (proj1 (MethodDesc_first_offender_decides SplitStr
             ["a=1"; "a=2"; "b"]) ["a=1"] "a=2" ["b"]
             (mkAnyParams ["a"] ["1"]) eq_refl eq_refl) ("a", "2")).
    + reflexivity.
    + simpl. left.
  - apply (proj1 (proj1 (MethodDesc_first_offender_decides SplitStr
             ["a=1"; "b"; "a=2"]) ["a=1"] "b" ["a=2"]
             (mkAnyParams ["a"] ["1"]) eq_refl eq_refl)).
    apply malformed_SplitStr_b.
  - apply (proj1 (proj2 (MethodDesc_first_offender_decides SplitStr
             ["a=1"; "b=2"])) [("a", "1"); ("b", "2")]).
    + repeat constructor.
    + simpl. apply NoDup_cons. split; [|apply NoDup_singleton].
      intros Hin%list_elem_of_singleton. discriminate.
Defined.

(** ** Construction from names and values, and the manager over it *)

(** C10.  The constructor from two vectors returns for every pair of
    vectors, of equal length or not, with duplicate names or not, and the
    object holds the vectors as given.  The lengths are compared when an
    AnyParamManager is constructed over the object: that fails, fatally,
    exactly when they differ. *)
Theorem AnyParams_Names_Values_unchecked (Names Values : list string) :
  ParamNames (AnyParams_Names_Values Names Values) = Names ∧
  ParamValues (AnyParams_Names_Values Names Values) = Values ∧
  (length Names ≠ length Values →
   AnyParamManager_new (AnyParams_Names_Values Names Values)
   = LOG_FATAL LengthMismatch) ∧
  (length Names = length Values →
   AnyParamManager_new (AnyParams_Names_Values Names Values)
   = mret (mkAnyParamManager (AnyParams_Names_Values Names Values) ∅)).
Proof.
  split_and!; [done..| |]; intros Hlen; unfold AnyParamManager_new; simpl.
  - by apply Nat.eqb_neq in Hlen as ->.
  - by apply Nat.eqb_eq in Hlen as ->.
Qed.

Lemma AnyParams_Names_Values_unchecked_witness :
  AnyParamManager_new (AnyParams_Names_Values ["a"; "a"; "b"] ["1"])
  = LOG_FATAL LengthMismatch ∧
  AnyParamManager_new (AnyParams_Names_Values ["a"; "a"] ["1"; "2"])
  = mret (mkAnyParamManager (AnyParams_Names_Values ["a"; "a"] ["1"; "2"]) ∅).
Proof.
  split.
  - apply (proj1 (proj2 (proj2
      (AnyParams_Names_Values_unchecked ["a"; "a"; "b"] ["1"])))).
    simpl. lia.
  - apply (proj2 (proj2 (proj2
      (AnyParams_Names_Values_unchecked ["a"; "a"] ["1"; "2"])))).
    reflexivity.
Defined.

(** ** Reading the tokens back *)

Lemma split_on_none c s : occurrences c s = 0 → split_on c s = [s].
Proof.
  induction s as [|c' s IH]; simpl; [done|].
  destruct (Ascii.eqb c' c); [done|].
  intros Hs. by rewrite IH.
Qed.

Lemma split_on_one s :
  occurrences "=" s = 1 → split_on "=" s = [name_of s; value_of s].
Proof.
  induction s as [|c s IH]; simpl; [done|].
  destruct (Ascii.eqb c "=").
  - intros [= Hs]. by rewrite split_on_none.
  - intros Hs. by rewrite IH.
Qed.

Lemma name_of_value_of s :
  occurrences "=" s = 1 → name_of s +:+ "=" +:+ value_of s = s.
Proof.
  induction s as [|c s IH]; simpl; [done|].
  destruct (Ascii.eqb_spec c "=") as [->|_].
  - done.
  - intros Hs.
    change (String c (name_of s +:+ "=" +:+ value_of s) = String c s).
    f_equal. by apply IH.
Qed.

Lemma splits_SplitStr token :
  occurrences "=" token = 1 →
  splits SplitStr token (name_of token, value_of token).
Proof. intros Hone. unfold splits, SplitStr. by rewrite split_on_one. Qed.

Lemma read_back_tokens tokens :
  Forall (λ token, occurrences "=" token = 1) tokens →
  read_back (mkAnyParams (name_of <$> tokens) (value_of <$> tokens)) = tokens.
Proof.
  unfold read_back. simpl.
  induction 1 as [|token tokens Hone _ IH]; [done|].
  rewrite !fmap_cons. cbn [zip_with].
  by rewrite IH, (name_of_value_of token).
Qed.

(** C8.  For every list of tokens that have exactly one '=' each and
    distinct names, the construction returns a parameter set, and the
    name/value pairs of that set, read back in order, are the tokens. *)
Theorem MethodDesc_round_trip (tokens : list string) :
  Forall (λ token, occurrences "=" token = 1) tokens →
  NoDup (name_of <$> tokens) →
  ∃ ps, AnyParams_MethodDesc SplitStr tokens = mret ps ∧
        ParamNames ps = name_of <$> tokens ∧
        ParamValues ps = value_of <$> tokens ∧
        read_back ps = tokens.
Proof.
  intros Hone Hnd.
  set (pairs := (λ token, (name_of token, value_of token)) <$> tokens).
  assert (pairs.*1 = name_of <$> tokens) as Hnames
    by (unfold pairs; by rewrite <- list_fmap_compose).
  assert (pairs.*2 = value_of <$> tokens) as Hvalues
    by (unfold pairs; by rewrite <- list_fmap_compose).
  assert (Forall2 (splits SplitStr) tokens pairs) as Hall.
  { unfold pairs. apply Forall2_fmap_r, Forall_Forall2_diag.
    apply (Forall_impl _ _ _ Hone). intros token. apply splits_SplitStr. }
  exists (mkAnyParams (name_of <$> tokens) (value_of <$> tokens)).
  split_and!; [|done..|by apply read_back_tokens].
  rewrite (MethodDesc_accepts_all _ _ pairs), Hnames, Hvalues;
    [done..|by rewrite Hnames].
Qed.

Lemma MethodDesc_round_trip_witness :
  ∃ ps, AnyParams_MethodDesc SplitStr ["M=16"; "efConstruction=200"] = mret ps ∧
        ParamNames ps = ["M"; "efConstruction"] ∧
        ParamValues ps = ["16"; "200"] ∧
        read_back ps = ["M=16"; "efConstruction=200"].
Proof.
  apply (MethodDesc_round_trip ["M=16"; "efConstruction=200"]).
  - repeat constructor.
  - simpl. apply NoDup_cons. split; [|apply NoDup_singleton].
    intros Hin%list_elem_of_singleton. discriminate.
Defined.

(** ** The destructor *)

Lemma bind_unfold {A B} (m : Run A) (k : A → Run B) : (m ≫= k) = Log.bind m k.
Proof. reflexivity. Qed.

Lemma destructor_loop_filter seen Names bFail :
  destructor_loop seen Names bFail
  = mkRun (unknown_line <$> filter (λ Name, Name ∉ seen) Names)
      (Returned (bFail || bool_decide (filter (λ Name, Name ∉ seen) Names ≠ []))).
Proof.
  revert bFail. induction Names as [|Name Names IH]; intros bFail.
  - simpl. by rewrite orb_false_r.
  - simpl. rewrite filter_cons. destruct (decide (Name ∉ seen)) as [Hn|Hn].
    + rewrite bind_LOG, IH. simpl. by rewrite orb_true_r.
    + by rewrite IH.
Qed.

(** C3.  The destructor logs one "Unknown parameter" error line for every
    managed name that is not in the seen set, all of them and in the order
    of the parameters, before it decides: it then fails, fatally, exactly
    when there is such a name, and returns without a line logged when the
    seen set covers every name. *)
Theorem destructor_reports_every_unknown (this : AnyParamManager) :
  (∀ Name, Name ∈ ParamNames (params this) → Name ∉ seen this →
     unknown_line Name ∈ log (AnyParamManager_destructor this)) ∧
  log (AnyParamManager_destructor this)
  = (unknown_line <$> unknown this) ++
    (if bool_decide (unknown this ≠ [])
     then [{| severity := FATAL; text := message UnknownParametersFound |}]
     else []) ∧
  (outcome (AnyParamManager_destructor this) = Aborted UnknownParametersFound ↔
   ∃ Name, Name ∈ ParamNames (params this) ∧ Name ∉ seen this) ∧
  (failed (AnyParamManager_destructor this) ↔
   ∃ Name, Name ∈ ParamNames (params this) ∧ Name ∉ seen this) ∧
  ((∀ Name, Name ∈ ParamNames (params this) → Name ∈ seen this) →
   AnyParamManager_destructor this = mret tt).
Proof.
  assert (unknown this ≠ [] ↔
          ∃ Name, Name ∈ ParamNames (params this) ∧ Name ∉ seen this) as Hne.
  { unfold unknown. split.
    - intros Hne. destruct (filter _ _) as [|Name l] eqn:E; [done|].
      assert (Name ∈ filter (λ Name, Name ∉ seen this) (ParamNames (params this)))
        as [? ?]%list_elem_of_filter by (rewrite E; left).
      by exists Name.
    - intros (Name & Hin & Hun) E.
      assert (Name ∈ filter (λ Name, Name ∉ seen this) (ParamNames (params this)))
        as Hf by by apply list_elem_of_filter.
      rewrite E in Hf. by apply elem_of_nil in Hf. }
  assert (AnyParamManager_destructor this
          = mkRun ((unknown_line <$> unknown this) ++
                   (if bool_decide (unknown this ≠ [])
                    then [{| severity := FATAL;
                             text := message UnknownParametersFound |}]
                    else []))
              (if bool_decide (unknown this ≠ [])
               then Aborted UnknownParametersFound else Returned tt)) as Hrun.
  { unfold AnyParamManager_destructor. rewrite destructor_loop_filter.
    fold (unknown this). rewrite bind_unfold. unfold Log.bind. simpl.
    by destruct (bool_decide (unknown this ≠ [])). }
  rewrite Hrun. simpl. split_and!.
  - intros Name Hin Hun. apply elem_of_app. left.
    apply list_elem_of_fmap. exists Name. split; [done|].
    by apply list_elem_of_filter.
  - done.
  - rewrite <- Hne. case_bool_decide; naive_solver.
  - rewrite <- Hne. unfold failed. simpl. case_bool_decide; naive_solver.
  - intros Hall. destruct (decide (unknown this = [])) as [->|E]; [done|].
    apply Hne in E as (Name & Hin & Hun). by destruct Hun; apply Hall.
Qed.

Lemma destructor_reports_every_unknown_witness :
  AnyParamManager_destructor
    (mkAnyParamManager (mkAnyParams ["a"; "b"] ["1"; "2"]) {["a"; "b"; "c"]})
  = mret tt.
Proof.
  apply (proj2 (proj2 (proj2 (proj2 (destructor_reports_every_unknown
    (mkAnyParamManager (mkAnyParams ["a"; "b"] ["1"; "2"]) {["a"; "b"; "c"]})))))).
  simpl. set_solver.
Defined.

(** ** The getters *)

Section GetParam_facts.
Context {T : Type} `{ParamType T}.

Lemma GetParam_loop_absent Name Values i Names bFound (Value : T) :
  Name ∉ Names →
  GetParam_loop Name Values i Names bFound Value = mret (bFound, Value).
Proof.
  revert i. induction Names as [|n Names IH]; intros i Habs; [done|].
  apply not_elem_of_cons in Habs as [Hne Habs].
  simpl. rewrite decide_False by done. by apply IH.
Qed.

Lemma GetParam_loop_app Name Values i pre post bFound (Value : T) :
  GetParam_loop Name Values i (pre ++ post) bFound Value
  = '(bFound', Value') ← GetParam_loop Name Values i pre bFound Value;
    GetParam_loop Name Values (i + length pre) post bFound' Value'.
Proof.
  revert i bFound Value.
  induction pre as [|n pre IH]; intros i bFound Value.
  - simpl. by rewrite bind_mret, Nat.add_0_r.
  - simpl. replace (i + S (length pre)) with (S i + length pre) by lia.
    destruct (decide (Name = n)) as [->|Hne]; [|apply IH].
    rewrite !bind_assoc. apply bind_ext. intros s.
    rewrite bind_assoc. apply bind_ext. intros Value'. apply IH.
Qed.

Lemma GetParam_loop_match Name Values i post s x bFound (Value : T) :
  Values !! i = Some s → ConvertStrToValue s = mret x → Name ∉ post →
  GetParam_loop Name Values i (Name :: post) bFound Value = mret (true, x).
Proof.
  intros Hs Hx Habs. simpl. rewrite decide_True by done.
  rewrite (at_index_Some _ _ s), bind_mret, Hx, bind_mret by done.
  by apply GetParam_loop_absent.
Qed.

Lemma GetParam_loop_aborts Name Values i post s f bFound (Value : T) :
  Values !! i = Some s → outcome (ConvertStrToValue (T:=T) s) = Aborted f →
  GetParam_loop Name Values i (Name :: post) bFound Value
  = mkRun (log (ConvertStrToValue (T:=T) s)) (Aborted f).
Proof.
  intros Hs Hf. simpl. rewrite decide_True by done.
  rewrite (at_index_Some _ _ s), bind_mret by done.
  by apply bind_Aborted_run.
Qed.

(** When each matching entry converts, the loop returns. *)
Lemma GetParam_loop_converts Name Values i Names bFound (Value : T) :
  (∀ j, Names !! j = Some Name →
     ∃ s y, Values !! (i + j) = Some s ∧ ConvertStrToValue s = mret y) →
  ∃ bFound' Value',
    GetParam_loop Name Values i Names bFound Value = mret (bFound', Value').
Proof.
  revert i bFound Value.
  induction Names as [|n Names IH]; intros i bFound Value Hconv; [by eexists _, _|].
  assert (∀ j, Names !! j = Some Name →
     ∃ s y, Values !! (S i + j) = Some s ∧ ConvertStrToValue s = mret y) as Hrest.
  { intros j Hj. replace (S i + j) with (i + S j) by lia. by apply Hconv. }
  simpl. destruct (decide (Name = n)) as [->|Hne]; [|by apply IH].
  destruct (Hconv 0 eq_refl) as (s & y & Hs & Hy).
  rewrite Nat.add_0_r in Hs.
  rewrite (at_index_Some _ _ s), bind_mret, Hy, bind_mret by done.
  by apply IH.
Qed.

Lemma GetParam_loop_found Name Values i Names bFound (Value : T) bFound' Value' :
  outcome (GetParam_loop Name Values i Names bFound Value)
  = Returned (bFound', Value') →
  Name ∈ Names → bFound' = true.
Proof.
  revert i bFound Value.
  induction Names as [|n Names IH]; intros i bFound Value Hret Hin.
  { by apply elem_of_nil in Hin. }
  simpl in Hret. destruct (decide (Name = n)) as [->|Hne].
  - apply bind_Returned in Hret as (s & _ & Hret).
    apply bind_Returned in Hret as (x & _ & Hret).
    destruct (decide (n ∈ Names)) as [Hn|Hn]; [by eapply IH|].
    rewrite GetParam_loop_absent in Hret by done. by injection Hret.
  - apply elem_of_cons in Hin as [->|Hin]; [done|]. by eapply IH.
Qed.

Lemma GetParam_after_loop Name Value bRequired this bFound Value' :
  GetParam_loop Name (ParamValues (params this)) 0 (ParamNames (params this))
    false Value = mret (bFound, Value') →
  GetParam Name Value bRequired this
  = if negb bFound && bRequired
    then LOG_FATAL (MissingRequiredParameterError Name)
    else resolved Name Value' this.
Proof.
  intros Hloop. unfold GetParam. rewrite Hloop, bind_mret.
  by destruct (negb bFound && bRequired).
Qed.

Lemma lookup_split (Names : list string) i Name :
  Names !! i = Some Name →
  ∃ pre post, Names = pre ++ Name :: post ∧ length pre = i.
Proof.
  intros Hi. exists (take i Names), (drop (S i) Names). split.
  - by rewrite <- drop_S, take_drop.
  - apply length_take_le. apply lookup_lt_Some in Hi. lia.
Qed.

End GetParam_facts.

Lemma destructor_loop_ext seen1 seen2 Names bFail :
  (∀ Name, Name ∈ Names → Name ∈ seen1 ↔ Name ∈ seen2) →
  destructor_loop seen1 Names bFail = destructor_loop seen2 Names bFail.
Proof.
  revert bFail. induction Names as [|Name Names IH]; intros bFail Hsame; [done|].
  assert (Name ∈ seen1 ↔ Name ∈ seen2) as Hn by (apply Hsame; left).
  assert (∀ b, destructor_loop seen1 Names b = destructor_loop seen2 Names b) as Hrest.
  { intros b. apply IH. intros n Hin. apply Hsame. by right. }
  simpl. rewrite !Hrest.
  destruct (decide (Name ∉ seen1)), (decide (Name ∉ seen2)); naive_solver.
Qed.

(** C1 (as the code has it).  GetParamRequired goes through all the
    entries of the managed set and converts the value of every entry that
    has the name, so that with duplicates it is the last match that
    decides; with distinct names this is the conversion of the one entry
    of that name.  When each matching entry converts, the converted value
    of the last one is returned, the name is added to the seen set and
    the parameters are as before.  When no entry has the name, the call
    fails with the MissingRequiredParameterError of the name.  And when
    the conversion of a matching entry fails, those before it converting,
    the call fails with that failure, whatever entries come after. *)
Theorem GetParamRequired_last_match {T : Type} `{ParamType T}
    (Name : string) (Value : T) (this : AnyParamManager) :
  (Name ∉ ParamNames (params this) →
   GetParamRequired Name Value this
   = LOG_FATAL (MissingRequiredParameterError Name)) ∧
  (∀ i s x,
     ParamNames (params this) !! i = Some Name →
     (∀ j, i < j → ParamNames (params this) !! j ≠ Some Name) →
     ParamValues (params this) !! i = Some s →
     ConvertStrToValue s = mret x →
     (∀ j, j < i → ParamNames (params this) !! j = Some Name →
        ∃ s' y, ParamValues (params this) !! j = Some s' ∧
                ConvertStrToValue s' = mret y) →
     GetParamRequired Name Value this
     = mkRun [{| severity := INFO; text := trace Name x |}]
         (Returned (x, mkAnyParamManager (params this)
                         ({[Name]} ∪ seen this)))) ∧
  (NoDup (ParamNames (params this)) →
   ∀ i s,
     ParamNames (params this) !! i = Some Name →
     ParamValues (params this) !! i = Some s →
     GetParamRequired Name Value this
     = x ← ConvertStrToValue s;
       LOG INFO (trace Name x);;
       mret (x, mkAnyParamManager (params this) ({[Name]} ∪ seen this))) ∧
  (∀ i s f,
     ParamNames (params this) !! i = Some Name →
     ParamValues (params this) !! i = Some s →
     outcome (ConvertStrToValue (T:=T) s) = Aborted f →
     (∀ j, j < i → ParamNames (params this) !! j = Some Name →
        ∃ s' y, ParamValues (params this) !! j = Some s' ∧
                ConvertStrToValue (T:=T) s' = mret y) →
     GetParamRequired Name Value this
     = mkRun (log (ConvertStrToValue (T:=T) s)) (Aborted f)).
Proof.
  unfold GetParamRequired. split_and!.
  4:{ intros i s f Hi Hs Hf Hbefore.
      destruct (lookup_split _ _ _ Hi) as (pre & post & Hnames & Hlen).
      unfold GetParam. rewrite Hnames, GetParam_loop_app.
      destruct (GetParam_loop_converts Name (ParamValues (params this)) 0 pre
                  false Value) as (b & v & ->).
      { intros j Hj. simpl. apply Hbefore.
        - apply lookup_lt_Some in Hj. lia.
        - rewrite Hnames. by rewrite lookup_app_l by by eapply lookup_lt_Some. }
      rewrite bind_mret. change (0 + length pre) with (length pre).
      rewrite Hlen, (GetParam_loop_aborts _ _ _ _ s f) by done.
      by rewrite (bind_Aborted_run _ _ f). }
  - intros Habs.
    by rewrite (GetParam_after_loop _ _ _ _ false Value)
      by by apply GetParam_loop_absent.
  - intros i s x Hi Hlast Hs Hx Hbefore.
    destruct (lookup_split _ _ _ Hi) as (pre & post & Hnames & Hlen).
    rewrite (GetParam_after_loop _ _ _ _ true x); [done|].
    rewrite Hnames, GetParam_loop_app.
    destruct (GetParam_loop_converts Name (ParamValues (params this)) 0 pre
                false Value) as (b & v & ->).
    { intros j Hj. simpl. apply Hbefore.
      - apply lookup_lt_Some in Hj. lia.
      - rewrite Hnames. by rewrite lookup_app_l by by eapply lookup_lt_Some. }
    rewrite bind_mret. simpl. rewrite Hlen.
    apply (GetParam_loop_match _ _ _ _ s); [done..|].
    intros Hin. apply list_elem_of_lookup in Hin as [j Hj].
    apply (Hlast (i + S j)); [lia|].
    rewrite Hnames, <- Hlen.
    by rewrite lookup_app_r, Nat.add_comm, Nat.add_sub by lia.
  - intros Hnd i s Hi Hs.
    destruct (lookup_split _ _ _ Hi) as (pre & post & Hnames & Hlen).
    rewrite Hnames in Hnd. apply NoDup_app in Hnd as (_ & Hpre & Hpost).
    apply NoDup_cons in Hpost as [Hpost _].
    assert (Name ∉ pre) as Habs by (intros Hin; apply (Hpre _ Hin); left).
    unfold GetParam. rewrite Hnames, GetParam_loop_app.
    rewrite GetParam_loop_absent, bind_mret by done.
    simpl. rewrite decide_True, Hlen by done.
    rewrite (at_index_Some _ _ s), bind_mret by done.
    rewrite !bind_assoc. apply bind_ext. intros x.
    by rewrite GetParam_loop_absent, bind_mret by done.
Qed.

Lemma GetParamRequired_last_match_witness :
  GetParamRequired "M" 0%Z
    (mkAnyParamManager (mkAnyParams ["M"; "efSearch"] ["16"; "100"]) ∅)
  = (x ← ConvertStrToValue "16";
     LOG INFO (trace "M" x);;
     mret (x, mkAnyParamManager (mkAnyParams ["M"; "efSearch"] ["16"; "100"])
                ({["M"]} ∪ ∅))) ∧
  GetParamRequired "efSearch" 0%Z
    (mkAnyParamManager (mkAnyParams ["M"; "efSearch"] ["16"; "100"]) ∅)
  = mkRun [{| severity := INFO; text := trace "efSearch" 100%Z |}]
      (Returned (100%Z,
                 mkAnyParamManager (mkAnyParams ["M"; "efSearch"] ["16"; "100"])
                   ({["efSearch"]} ∪ ∅))) ∧
  GetParamRequired "delta" 0%Z
    (mkAnyParamManager (mkAnyParams ["M"; "efSearch"] ["16"; "100"]) ∅)
  = LOG_FATAL (MissingRequiredParameterError "delta") ∧
  GetParamRequired "x" 0%Z
    (mkAnyParamManager (mkAnyParams ["x"; "x"] ["bad"; "5"]) ∅)
  = mkRun (log (ConvertStrToValue (T:=Z) "bad"))
      (Aborted (ParameterConversionError "bad" "i")).
Proof.
  split_and!.
  - apply (proj1 (proj2 (proj2 (GetParamRequired_last_match "M" 0%Z
      (mkAnyParamManager (mkAnyParams ["M"; "efSearch"] ["16"; "100"]) ∅))))
      ltac:(simpl; apply NoDup_cons; split;
            [intros Hin%list_elem_of_singleton; discriminate
            |apply NoDup_singleton]) 0 "16" eq_refl eq_refl).
  - apply (proj1 (proj2 (GetParamRequired_last_match "efSearch" 0%Z
      (mkAnyParamManager (mkAnyParams ["M"; "efSearch"] ["16"; "100"]) ∅)))
      1 "100" 100%Z eq_refl).
    + intros [|[|j]] Hj; [lia..|done].
    + reflexivity.
    + reflexivity.
    + intros [|j] Hj; [discriminate|lia].
  - apply (proj1 (GetParamRequired_last_match "delta" 0%Z
      (mkAnyParamManager (mkAnyParams ["M"; "efSearch"] ["16"; "100"]) ∅))).
    simpl. set_solver.
  - refine (proj2 (proj2 (proj2 (GetParamRequired_last_match "x" 0%Z
      (mkAnyParamManager (mkAnyParams ["x"; "x"] ["bad"; "5"]) ∅))))
      0 "bad" (ParameterConversionError "bad" "i") eq_refl eq_refl eq_refl _).
    intros j Hj. lia.
Defined.

(** C1, as it is stated, fails on a set in which a name occurs twice,
    such as the constructor from names and values accepts: the first
    entry named x has the value "first", and GetParamRequired returns
    "second". *)
Lemma GetParamRequired_not_first_match :
  ParamNames (AnyParams_Names_Values ["x"; "x"] ["first"; "second"]) !! 0
  = Some "x" ∧
  ParamValues (AnyParams_Names_Values ["x"; "x"] ["first"; "second"]) !! 0
  = Some "first" ∧
  ConvertStrToValue (T:=string) "first" = mret "first" ∧
  GetParamRequired "x" ""
    (mkAnyParamManager (AnyParams_Names_Values ["x"; "x"] ["first"; "second"]) ∅)
  = mkRun [{| severity := INFO; text := "@@@ Parameter: x=second @@@" |}]
      (Returned ("second",
                 mkAnyParamManager
                   (AnyParams_Names_Values ["x"; "x"] ["first"; "second"])
                   ({["x"]} ∪ ∅))) ∧
  "second" ≠ "first".
Proof. split_and!; [reflexivity..|discriminate]. Qed.

(** C7.  When no entry of the managed set has the name, GetParamOptional
    does not fail: it returns the value the caller passed, unchanged (and
    logs the trace line, and adds the name to the seen set).  When some
    entry has the name, GetParamOptional and GetParamRequired are the same
    run: the same lookup and conversions, the same lines logged, the same
    value and the same seen set, or the same failure. *)
Theorem GetParamOptional_default {T : Type} `{ParamType T}
    (Name : string) (default : T) (this : AnyParamManager) :
  (Name ∉ ParamNames (params this) →
   GetParamOptional Name default this
   = mkRun [{| severity := INFO; text := trace Name default |}]
       (Returned (default, mkAnyParamManager (params this)
                             ({[Name]} ∪ seen this)))) ∧
  (Name ∈ ParamNames (params this) →
   GetParamOptional Name default this = GetParamRequired Name default this).
Proof.
  unfold GetParamOptional, GetParamRequired. split.
  - intros Habs.
    by rewrite (GetParam_after_loop _ _ _ _ false default)
      by by apply GetParam_loop_absent.
  - intros Hin. unfold GetParam.
    destruct (GetParam_loop Name (ParamValues (params this)) 0
                (ParamNames (params this)) false default)
      as [l [[bFound Value']| |]] eqn:Hloop; [|done..].
    assert (bFound = true) as ->; [|done].
    eapply GetParam_loop_found; [|done]. by rewrite Hloop.
Qed.

Lemma GetParamOptional_default_witness :
  GetParamOptional "delta" 7%Z
    (mkAnyParamManager (mkAnyParams ["M"; "efSearch"] ["16"; "100"]) ∅)
  = mkRun [{| severity := INFO; text := trace "delta" 7%Z |}]
      (Returned (7%Z,
                 mkAnyParamManager (mkAnyParams ["M"; "efSearch"] ["16"; "100"])
                   ({["delta"]} ∪ ∅))) ∧
  GetParamOptional "M" 7%Z
    (mkAnyParamManager (mkAnyParams ["M"; "efSearch"] ["16"; "100"]) ∅)
  = GetParamRequired "M" 7%Z
      (mkAnyParamManager (mkAnyParams ["M"; "efSearch"] ["16"; "100"]) ∅).
Proof.
  split.
  - apply (proj1 (GetParamOptional_default "delta" 7%Z
      (mkAnyParamManager (mkAnyParams ["M"; "efSearch"] ["16"; "100"]) ∅))).
    simpl. set_solver.
  - apply (proj2 (GetParamOptional_default "M" 7%Z
      (mkAnyParamManager (mkAnyParams ["M"; "efSearch"] ["16"; "100"]) ∅))).
    simpl. left.
Defined.

(** C9.  A call of GetParamOptional with a name that no entry of the
    managed set has adds that name to the seen set all the same, so that
    the seen set then holds a name that is not a name of the managed set;
    the destructor, which goes through the names of the set only, runs
    after the call as it would have run before it. *)
Theorem GetParamOptional_absent_is_seen {T : Type} `{ParamType T}
    (Name : string) (Value : T) (this : AnyParamManager) :
  Name ∉ ParamNames (params this) →
  ∃ this',
    outcome (GetParamOptional Name Value this) = Returned (Value, this') ∧
    params this' = params this ∧
    seen this' = {[Name]} ∪ seen this ∧
    Name ∈ seen this' ∧
    (Name ∉ ParamNames (params this')) ∧
    AnyParamManager_destructor this' = AnyParamManager_destructor this.
Proof.
  intros Habs.
  exists (mkAnyParamManager (params this) ({[Name]} ∪ seen this)).
  split_and!; [|done|done|set_solver|done|].
  - unfold GetParamOptional.
    by rewrite (GetParam_after_loop _ _ _ _ false Value)
      by by apply GetParam_loop_absent.
  - unfold AnyParamManager_destructor. simpl.
    rewrite (destructor_loop_ext _ (seen this)); [done|].
    intros n Hn. rewrite elem_of_union, elem_of_singleton.
    split; [|by right]. intros [->|?]; done.
Qed.

Lemma GetParamOptional_absent_is_seen_witness :
  ∃ this',
    outcome (GetParamOptional "delta" 7%Z
      (mkAnyParamManager (mkAnyParams ["M"] ["16"]) {["M"]}))
    = Returned (7%Z, this') ∧
    params this' = mkAnyParams ["M"] ["16"] ∧
    seen this' = {["delta"]} ∪ {["M"]} ∧
    "delta" ∈ seen this' ∧
    ("delta" ∉ ParamNames (params this')) ∧
    AnyParamManager_destructor this'
    = AnyParamManager_destructor
        (mkAnyParamManager (mkAnyParams ["M"] ["16"]) {["M"]}).
Proof.
  refine (GetParamOptional_absent_is_seen "delta" 7%Z
    (mkAnyParamManager (mkAnyParams ["M"] ["16"]) {["M"]}) _).
  simpl. set_solver.
Defined.

(** ** Conversion *)

(** C2 (as the code has it).  For a type read through the primary
    template, the conversion fails whenever the extraction fails or
    characters are left unread after it, it returns the extracted value
    exactly when the extraction succeeds and has reached the end of the
    text, and its only failure is the ParameterConversionError that gives
    the text and the name of the type: the name of the parameter is not
    passed to the conversion and is not in the failure.  For the string
    type the conversion returns the text as it is. *)
Theorem ConvertStrToValue_whole_text {T : Type} `{IStream T} (s : string) :
  (extracted (stream_in s) = None ∨ unread (stream_in s) ≠ "" →
   ConvertStrToValue_primary s
   = LOG_FATAL (ParameterConversionError s type_name)) ∧
  (∀ Value, ConvertStrToValue_primary s = mret Value ↔
     extracted (stream_in s) = Some Value ∧ eofbit (stream_in s) = true) ∧
  ((∃ Value, ConvertStrToValue_primary s = mret Value) ∨
   ConvertStrToValue_primary s
   = mkRun [{| severity := FATAL;
               text := "Failed to convert value '" +:+ s +:+
                       "' from type: " +:+ type_name |}]
       (Aborted (ParameterConversionError s type_name))) ∧
  ConvertStrToValue (T:=string) s = mret s.
Proof.
  unfold ConvertStrToValue_primary. split_and!.
  - intros [Hfail|Hrest].
    + by rewrite Hfail.
    + destruct (extracted (stream_in s)); [|done].
      destruct (eofbit (stream_in s)) eqn:Heof; [|done].
      by apply eofbit_unread in Heof.
  - intros Value. destruct (extracted (stream_in s)) as [v|]; [|split].
    + destruct (eofbit (stream_in s)); simpl; [|split].
      * split; [by intros ->%mret_inj|]. by intros [[= ->] _].
      * discriminate.
      * by intros [_ ?].
    + discriminate.
    + by intros [? _].
  - destruct (extracted (stream_in s)) as [v|]; [|by right].
    destruct (eofbit (stream_in s)); [left; by exists v|by right].
  - done.
Qed.

Lemma ConvertStrToValue_whole_text_witness :
  ConvertStrToValue_primary (T:=Z) "42x"
  = LOG_FATAL (ParameterConversionError "42x" "i") ∧
  ConvertStrToValue_primary (T:=Z) "42" = mret 42%Z ∧
  ConvertStrToValue (T:=string) "3.14" = mret "3.14".
Proof.
  split_and!.
  - refine (proj1 (ConvertStrToValue_whole_text (T:=Z) "42x") _).
    right. discriminate.
  - refine (proj2 (proj1 (proj2 (ConvertStrToValue_whole_text (T:=Z) "42"))
                     42%Z) _).
    split; reflexivity.
  - exact (proj2 (proj2 (proj2 (ConvertStrToValue_whole_text (T:=Z) "3.14")))).
Defined.

(** C2, as it is stated, fails on the name of the parameter: reading the
    parameter a of one set and the parameter b of another, both with the
    text 42x, ends in the same failure and the same line logged, which
    give the text and the type and neither name. *)
Lemma ParameterConversionError_without_name :
  GetParamRequired "a" 0%Z
    (mkAnyParamManager (AnyParams_Names_Values ["a"] ["42x"]) ∅)
  = mkRun [{| severity := FATAL;
              text := "Failed to convert value '42x' from type: i" |}]
      (Aborted (ParameterConversionError "42x" "i")) ∧
  GetParamRequired "b" 0%Z
    (mkAnyParamManager (AnyParams_Names_Values ["b"] ["42x"]) ∅)
  = GetParamRequired "a" 0%Z
      (mkAnyParamManager (AnyParams_Names_Values ["a"] ["42x"]) ∅) ∧
  "a" ≠ "b".
Proof. split_and!; [reflexivity..|discriminate]. Qed.

(** ** Replacing a value *)

Section ChangeParam_facts.
Context {T : Type} `{ParamType T}.

Lemma ChangeParam_loop_absent Name (Value : T) i Names this :
  Name ∉ Names →
  ChangeParam_loop Name Value i Names this
  = (this, LOG_FATAL (ParameterNotFoundError Name)).
Proof.
  revert i. induction Names as [|n Names IH]; intros i Habs; [done|].
  apply not_elem_of_cons in Habs as [Hne Habs].
  simpl. rewrite decide_False by done. by apply IH.
Qed.

Lemma ChangeParam_loop_first Name (Value : T) i pre post this :
  Name ∉ pre → (i + length pre < length (ParamValues this))%nat →
  ChangeParam_loop Name Value i (pre ++ Name :: post) this
  = (mkAnyParams (ParamNames this)
       (<[i + length pre:=stream_out Value]> (ParamValues this)), mret tt).
Proof.
  revert i. induction pre as [|n pre IH]; intros i Habs Hlen; simpl in *.
  - rewrite Nat.add_0_r in *. by rewrite !decide_True by done.
  - apply not_elem_of_cons in Habs as [Hne Habs].
    rewrite decide_False by done.
    replace (i + S (length pre)) with (S i + length pre) in * by lia.
    by apply IH.
Qed.

End ChangeParam_facts.

(** C6.  In a parameter set (as many values as names), ChangeParam finds
    the first entry that has the name, writes the value through
    [operator<<] and stores the text as the value of that entry: the names,
    the number of values and every other value are as before.  When no
    entry has the name, it fails with the ParameterNotFoundError of the
    name and the set is as before. *)
Theorem ChangeParam_first_match {T : Type} `{ParamType T}
    (Name : string) (Value : T) (this : AnyParams) :
  length (ParamNames this) = length (ParamValues this) →
  (Name ∉ ParamNames this →
   ChangeParam Name Value this
   = (this, LOG_FATAL (ParameterNotFoundError Name))) ∧
  (∀ i, ParamNames this !! i = Some Name →
        (∀ j, j < i → ParamNames this !! j ≠ Some Name) →
     ∃ this',
       ChangeParam Name Value this = (this', mret tt) ∧
       ParamNames this' = ParamNames this ∧
       length (ParamValues this') = length (ParamValues this) ∧
       ParamValues this' !! i = Some (stream_out Value) ∧
       ∀ j, j ≠ i → ParamValues this' !! j = ParamValues this !! j).
Proof.
  intros Hlen. split.
  - apply ChangeParam_loop_absent.
  - intros i Hi Hfirst.
    destruct (lookup_split _ _ _ Hi) as (pre & post & Hnames & Hpre).
    assert (i < length (ParamValues this)) as Hin
      by (rewrite <- Hlen; by eapply lookup_lt_Some).
    exists (mkAnyParams (ParamNames this)
              (<[i:=stream_out Value]> (ParamValues this))).
    split_and!; simpl.
    + unfold ChangeParam. rewrite Hnames at 1.
      rewrite ChangeParam_loop_first; simpl; rewrite ?Hpre; [done| |done].
      intros [j Hj]%list_elem_of_lookup.
      apply (Hfirst j).
      * apply lookup_lt_Some in Hj. lia.
      * rewrite Hnames. by rewrite lookup_app_l by by eapply lookup_lt_Some.
    + done.
    + apply length_insert.
    + by apply list_lookup_insert_eq.
    + intros j Hj. by apply list_lookup_insert_ne.
Qed.

Lemma ChangeParam_first_match_witness :
  ChangeParam "delta" 32%Z (mkAnyParams ["M"; "efSearch"] ["16"; "100"])
  = (mkAnyParams ["M"; "efSearch"] ["16"; "100"],
     LOG_FATAL (ParameterNotFoundError "delta")) ∧
  ∃ this',
    ChangeParam "M" 32%Z (mkAnyParams ["M"; "efSearch"] ["16"; "100"])
    = (this', mret tt) ∧
    ParamNames this' = ["M"; "efSearch"] ∧
    length (ParamValues this') = 2 ∧
    ParamValues this' !! 0 = Some (stream_out 32%Z) ∧
    ∀ j, j ≠ 0 → ParamValues this' !! j = ["16"; "100"] !! j.
Proof.
  split.
  - refine (proj1 (ChangeParam_first_match "delta" 32%Z
      (mkAnyParams ["M"; "efSearch"] ["16"; "100"]) eq_refl) _).
    simpl. set_solver.
  - refine (proj2 (ChangeParam_first_match "M" 32%Z
      (mkAnyParams ["M"; "efSearch"] ["16"; "100"]) eq_refl) 0 eq_refl _).
    intros j Hj. lia.
Defined.

(** ** Extraction *)

Lemma Extract_loop_kept (except : gset string) before Values Names names values seen :
  length Names = length Values →
  Extract_loop except (before ++ Values) (length before) Names names values seen
  = mret (names ++ (filter (λ entry, entry.1 ∉ except) (zip Names Values)).*1,
          values ++ (filter (λ entry, entry.1 ∉ except) (zip Names Values)).*2,
          list_to_set (filter (λ entry, entry.1 ∉ except) (zip Names Values)).*1
          ∪ seen).
Proof.
  revert before Values names values seen.
  induction Names as [|name Names IH];
    intros before [|v Values] names values seen Hlen; try discriminate Hlen.
  - simpl. rewrite !app_nil_r. do 2 f_equal. set_solver.
  - simpl in Hlen. injection Hlen as Hlen.
    assert (Extract_loop except (before ++ v :: Values) (S (length before)) Names
            = Extract_loop except ((before ++ [v]) ++ Values)
                (length (before ++ [v])) Names) as Hnext.
    { rewrite <- app_assoc, length_app. simpl. by rewrite Nat.add_1_r. }
    simpl. rewrite filter_cons. simpl.
    destruct (decide (name ∉ except)) as [Hn|Hn].
    + rewrite (at_index_Some _ _ v), bind_mret
        by by rewrite lookup_app_r, Nat.sub_diag by done.
      rewrite Hnext, IH by done.
      rewrite !fmap_cons, <- !app_assoc. simpl. do 2 f_equal. set_solver.
    + by rewrite Hnext, IH by done.
Qed.

Lemma kept_names ExceptList ps :
  length (ParamNames ps) = length (ParamValues ps) →
  (kept ExceptList ps).*1 = filter (λ Name, Name ∉ ExceptList) (ParamNames ps).
Proof.
  unfold kept. destruct ps as [Names Values]. simpl.
  revert Values. induction Names as [|name Names IH];
    intros [|v Values] Hlen; try discriminate Hlen; [done|].
  simpl in Hlen. injection Hlen as Hlen. simpl. rewrite !filter_cons. simpl.
  destruct (decide (name ∉ ExceptList)); rewrite ?fmap_cons, IH; done.
Qed.

(** C5.  Over a managed set (as many values as names),
    ExtractParametersExcept returns a new parameter set with the entries
    of the managed set whose name is not on the exception list, names and
    values, in the order of the managed set, and no other entry; the names
    extracted are added to the seen set of the manager, and the managed
    set is as before. *)
Theorem ExtractParametersExcept_complement
    (ExceptList : list string) (this : AnyParamManager) :
  length (ParamNames (params this)) = length (ParamValues (params this)) →
  ExtractParametersExcept ExceptList this
  = mret (mkAnyParams (kept ExceptList (params this)).*1
                      (kept ExceptList (params this)).*2,
          mkAnyParamManager (params this)
            (list_to_set (kept ExceptList (params this)).*1 ∪ seen this)) ∧
  (kept ExceptList (params this)).*1
  = filter (λ Name, Name ∉ ExceptList) (ParamNames (params this)) ∧
  ∀ i Name sVal,
    (kept ExceptList (params this)) !! i = Some (Name, sVal) →
    (Name ∉ ExceptList) ∧
    ∃ j, ParamNames (params this) !! j = Some Name ∧
         ParamValues (params this) !! j = Some sVal.
Proof.
  intros Hlen. split_and!.
  - unfold ExtractParametersExcept.
    rewrite (Extract_loop_kept _ [] (ParamValues (params this))) by done.
    rewrite bind_mret. unfold kept. simpl.
    assert (filter (λ entry : string * string, entry.1 ∉ ExceptList)
              (zip (ParamNames (params this)) (ParamValues (params this)))
            = filter (λ entry : string * string,
                        entry.1 ∉ (list_to_set ExceptList : gset string))
                (zip (ParamNames (params this)) (ParamValues (params this))))
      as ->; [|done].
    apply list_filter_iff. intros entry. by rewrite elem_of_list_to_set.
  - by apply kept_names.
  - intros i Name sVal Hi.
    assert ((Name, sVal) ∈ kept ExceptList (params this)) as Hin
      by (apply list_elem_of_lookup; eauto).
    apply list_elem_of_filter in Hin as [Hnot Hin]. split; [done|].
    apply list_elem_of_lookup in Hin as [j Hj]. exists j.
    by apply lookup_zip_with_Some in Hj as (? & ? & [= -> ->] & ? & ?).
Qed.

Lemma ExtractParametersExcept_complement_witness :
  ExtractParametersExcept ["a"]
    (mkAnyParamManager (mkAnyParams ["a"; "b"; "c"] ["1"; "2"; "3"]) ∅)
  = mret (mkAnyParams ["b"; "c"] ["2"; "3"],
          mkAnyParamManager (mkAnyParams ["a"; "b"; "c"] ["1"; "2"; "3"])
            (list_to_set ["b"; "c"] ∪ ∅)).
Proof.
  exact (proj1 (ExtractParametersExcept_complement ["a"]
    (mkAnyParamManager (mkAnyParams ["a"; "b"; "c"] ["1"; "2"; "3"]) ∅)
    eq_refl)).
Defined.

(** * Further properties of the code *)

(** ** More on the monad of runs *)

Lemma bind_Aborted {A B} (m : Run A) (k : A → Run B) f :
  outcome (m ≫= k) = Aborted f →
  outcome m = Aborted f ∨ ∃ a, outcome m = Returned a ∧ outcome (k a) = Aborted f.
Proof.
  rewrite bind_unfold. unfold Log.bind.
  destruct m as [l [a| |]]; simpl; intros Hk.
  - right. by exists a.
  - left. by injection Hk as ->.
  - done.
Qed.

Lemma bind_OutOfBounds {A B} (m : Run A) (k : A → Run B) :
  outcome (m ≫= k) = OutOfBounds →
  outcome m = OutOfBounds ∨ ∃ a, outcome m = Returned a ∧ outcome (k a) = OutOfBounds.
Proof.
  rewrite bind_unfold. unfold Log.bind.
  destruct m as [l [a| |]]; simpl; intros Hk; [|done|by left].
  right. by exists a.
Qed.

Lemma not_failed_mret {A} (a : A) : ¬ failed (mret a).
Proof. by intros [f Hf]. Qed.

(** ** The constructor from tokens, continued *)

Section MethodDesc_prefixes.
Variable split : string → ascii → bool * list string.

Lemma loop_failed_prefix pre post seen Names Values :
  failed (MethodDesc_loop split pre seen Names Values) →
  MethodDesc_loop split (pre ++ post) seen Names Values
  = MethodDesc_loop split pre seen Names Values.
Proof.
  revert seen Names Values.
  induction pre as [|token pre IH]; intros seen Names Values Hfail.
  { by destruct (not_failed_mret _ Hfail). }
  rewrite <- app_comm_cons.
  destruct (splits_or_malformed split token) as [[p Hs]|Hbad].
  2:{ by rewrite !loop_malformed. }
  destruct (decide (p.1 ∈ seen)) as [Hin|Hin].
  { by rewrite !(loop_duplicate _ _ p). }
  rewrite !(loop_push_back _ _ p) in * by done. by apply IH.
Qed.

Lemma loop_in_bounds tokens seen Names Values :
  outcome (MethodDesc_loop split tokens seen Names Values) ≠ OutOfBounds.
Proof.
  revert seen Names Values.
  induction tokens as [|token tokens IH]; intros seen Names Values; [done|].
  destruct (splits_or_malformed split token) as [[p Hs]|Hbad].
  2:{ by rewrite loop_malformed. }
  destruct (decide (p.1 ∈ seen)) as [Hin|Hin].
  { by rewrite (loop_duplicate _ _ p). }
  rewrite (loop_push_back _ _ p) by done. apply IH.
Qed.

End MethodDesc_prefixes.

(** X1.  The constructor from tokens fails fast: when it fails on a list
    of tokens, it fails in the same way, with the same lines logged, on
    every list that continues it.  And when it accepts a list, it accepts
    every beginning of it, with the names and the values a beginning of
    those of the whole. *)
Theorem MethodDesc_prefix
    (split : string → ascii → bool * list string) (pre post : list string) :
  (failed (AnyParams_MethodDesc split pre) →
   AnyParams_MethodDesc split (pre ++ post) = AnyParams_MethodDesc split pre) ∧
  (∀ ps, outcome (AnyParams_MethodDesc split (pre ++ post)) = Returned ps →
     ∃ ps', AnyParams_MethodDesc split pre = mret ps' ∧
            ParamNames ps' = take (length pre) (ParamNames ps) ∧
            ParamValues ps' = take (length pre) (ParamValues ps)).
Proof.
  split.
  - apply loop_failed_prefix.
  - intros ps Hret.
    apply MethodDesc_returned in Hret as (pairs & Hall & Hnd & ->).
    apply Forall2_app_inv_l in Hall as (pairs1 & pairs2 & Hpre & _ & ->).
    rewrite fmap_app in Hnd. apply NoDup_app in Hnd as (Hnd & _ & _).
    exists (mkAnyParams pairs1.*1 pairs1.*2). simpl.
    assert (length pre = length pairs1) as Hlen by by eapply Forall2_length.
    split_and!.
    + by apply MethodDesc_accepts_all.
    + by rewrite fmap_app, Hlen, <- (length_fmap fst), take_app_length.
    + by rewrite fmap_app, Hlen, <- (length_fmap snd), take_app_length.
Qed.

Lemma MethodDesc_prefix_witness :
  AnyParams_MethodDesc SplitStr (["a=1"; "a=2"] ++ ["b=3"; "c"])
  = AnyParams_MethodDesc SplitStr ["a=1"; "a=2"] ∧
  ∃ ps', AnyParams_MethodDesc SplitStr ["a=1"] = mret ps' ∧
         ParamNames ps' = take 1 ["a"; "b"] ∧
         ParamValues ps' = take 1 ["1"; "2"].
Proof.
  split.
  - refine (proj1 (MethodDesc_prefix SplitStr ["a=1"; "a=2"] ["b=3"; "c"]) _).
    by exists (DuplicateParameterError "a").
  - exact (proj2 (MethodDesc_prefix SplitStr ["a=1"] ["b=2"])
             (mkAnyParams ["a"; "b"] ["1"; "2"]) eq_refl).
Defined.

(** X2.  A parameter set that the constructor from tokens returns has one
    name and one value per token, so that an AnyParamManager can always be
    constructed over it; and the constructor never reads its split pair
    out of bounds, whatever SplitStr returns. *)
Theorem MethodDesc_managed
    (split : string → ascii → bool * list string) (tokens : list string) :
  outcome (AnyParams_MethodDesc split tokens) ≠ OutOfBounds ∧
  ∀ ps, outcome (AnyParams_MethodDesc split tokens) = Returned ps →
    length (ParamNames ps) = length tokens ∧
    length (ParamValues ps) = length tokens ∧
    AnyParamManager_new ps = mret (mkAnyParamManager ps ∅).
Proof.
  split; [apply loop_in_bounds|].
  intros ps Hret.
  apply MethodDesc_returned in Hret as (pairs & Hall & Hnd & ->).
  apply Forall2_length in Hall. simpl.
  unfold AnyParamManager_new. simpl.
  rewrite !length_fmap, Nat.eqb_refl. by rewrite Hall.
Qed.

Lemma MethodDesc_managed_witness :
  length (ParamNames (mkAnyParams ["M"; "efSearch"] ["16"; "100"])) = 2 ∧
  length (ParamValues (mkAnyParams ["M"; "efSearch"] ["16"; "100"])) = 2 ∧
  AnyParamManager_new (mkAnyParams ["M"; "efSearch"] ["16"; "100"])
  = mret (mkAnyParamManager (mkAnyParams ["M"; "efSearch"] ["16"; "100"]) ∅).
Proof.
  exact (proj2 (MethodDesc_managed SplitStr ["M=16"; "efSearch=100"])
           (mkAnyParams ["M"; "efSearch"] ["16"; "100"]) eq_refl).
Defined.

(** ** The manager, continued *)

Lemma filter_ext_in {A} (P Q : A → Prop) `{∀ x, Decision (P x)}
    `{∀ x, Decision (Q x)} (l : list A) :
  (∀ x, x ∈ l → P x ↔ Q x) → filter P l = filter Q l.
Proof.
  induction l as [|x l IH]; intros Hext; [done|].
  rewrite !filter_cons.
  assert (P x ↔ Q x) as Hx by (apply Hext; left).
  rewrite IH by (intros y Hy; apply Hext; by right).
  destruct (decide (P x)), (decide (Q x)); naive_solver.
Qed.

(** The run of the destructor, from the unknown names. *)
Lemma destructor_unknown this :
  AnyParamManager_destructor this
  = mkRun ((unknown_line <$> unknown this) ++
           (if bool_decide (unknown this ≠ [])
            then [{| severity := FATAL; text := message UnknownParametersFound |}]
            else []))
      (if bool_decide (unknown this ≠ [])
       then Aborted UnknownParametersFound else Returned tt).
Proof.
  unfold AnyParamManager_destructor. rewrite destructor_loop_filter.
  fold (unknown this). rewrite bind_unfold. unfold Log.bind. simpl.
  by destruct (bool_decide (unknown this ≠ [])).
Qed.

Lemma unknown_line_inj Name Name' : unknown_line Name = unknown_line Name' → Name = Name'.
Proof.
  unfold unknown_line. intros [= Heq]. exact Heq.
Qed.

Lemma unknown_line_logged this Name :
  unknown_line Name ∈ log (AnyParamManager_destructor this) ↔ Name ∈ unknown this.
Proof.
  rewrite destructor_unknown. simpl. rewrite elem_of_app, list_elem_of_fmap. split.
  - intros [(n & ->%unknown_line_inj & Hn)|Hfatal]; [done|].
    case_bool_decide; [|by apply elem_of_nil in Hfatal].
    by apply list_elem_of_singleton in Hfatal.
  - intros Hin. left. by exists Name.
Qed.

Section GetParam_more.
Context {T : Type} `{ParamType T}.

Lemma GetParam_Returned Name (Value : T) bRequired this x this' :
  outcome (GetParam Name Value bRequired this) = Returned (x, this') →
  this' = mkAnyParamManager (params this) ({[Name]} ∪ seen this).
Proof.
  unfold GetParam. intros Hret.
  apply bind_Returned in Hret as ([bFound Value'] & _ & Hret).
  apply bind_Returned in Hret as ([] & _ & Hret).
  apply bind_Returned in Hret as ([] & _ & Hret).
  rewrite outcome_mret in Hret. by injection Hret as _ <-.
Qed.

(** The loop reads the values only where the names match. *)
Lemma GetParam_loop_ext Name Values Values' i Names bFound (Value : T) :
  (∀ j, Names !! j = Some Name → Values !! (i + j) = Values' !! (i + j)) →
  GetParam_loop Name Values i Names bFound Value
  = GetParam_loop Name Values' i Names bFound Value.
Proof.
  revert i bFound Value.
  induction Names as [|n Names IH]; intros i bFound Value Hsame; [done|].
  assert (∀ b v, GetParam_loop Name Values (S i) Names b v
                 = GetParam_loop Name Values' (S i) Names b v) as Hrest.
  { intros b v. apply IH. intros j Hj.
    replace (S i + j) with (i + S j) by lia. by apply Hsame. }
  simpl. destruct (decide (Name = n)) as [->|Hne]; [|apply Hrest].
  pose proof (Hsame 0 eq_refl) as H0. rewrite Nat.add_0_r in H0.
  unfold at_index. rewrite <- H0.
  apply bind_ext. intros s. apply bind_ext. intros v. apply Hrest.
Qed.

Lemma GetParam_loop_in_bounds Name Values i Names bFound (Value : T) :
  (∀ s, outcome (ConvertStrToValue (T:=T) s) ≠ OutOfBounds) →
  (i + length Names ≤ length Values)%nat →
  outcome (GetParam_loop Name Values i Names bFound Value) ≠ OutOfBounds.
Proof.
  intros Hconv. revert i bFound Value.
  induction Names as [|n Names IH]; intros i bFound Value Hlen; [done|].
  simpl in *. destruct (decide (Name = n)) as [->|Hne]; [|apply IH; lia].
  destruct (lookup_lt_is_Some_2 Values i) as [s Hs]; [lia|].
  rewrite (at_index_Some _ _ s), bind_mret by done.
  intros [Hoob|(v & _ & Hoob)]%bind_OutOfBounds; [by apply (Hconv s)|].
  revert Hoob. apply IH. lia.
Qed.

(** Where a failure of the loop comes from. *)
Lemma GetParam_loop_Aborted Name Values i Names bFound (Value : T) f :
  outcome (GetParam_loop Name Values i Names bFound Value) = Aborted f →
  ∃ j s, Names !! j = Some Name ∧ Values !! (i + j) = Some s ∧
         outcome (ConvertStrToValue (T:=T) s) = Aborted f.
Proof.
  revert i bFound Value.
  induction Names as [|n Names IH]; intros i bFound Value Hf; [done|].
  assert (∀ b v, outcome (GetParam_loop Name Values (S i) Names b v) = Aborted f →
     ∃ j s, (n :: Names) !! j = Some Name ∧ Values !! (i + j) = Some s ∧
            outcome (ConvertStrToValue (T:=T) s) = Aborted f) as Hrest.
  { intros b v (j & s & Hj & Hs & Hc)%IH. exists (S j), s.
    by replace (i + S j) with (S i + j) by lia. }
  simpl in Hf. destruct (decide (Name = n)) as [->|Hne]; [|by eapply Hrest].
  apply bind_Aborted in Hf as [Hf|(s & Hs & Hf)].
  { unfold at_index in Hf. by destruct (Values !! i). }
  assert (Values !! i = Some s) as Hi.
  { unfold at_index in Hs. destruct (Values !! i); [|done].
    rewrite outcome_mret in Hs. congruence. }
  apply bind_Aborted in Hf as [Hf|(v & _ & Hf)]; [|by eapply Hrest].
  exists 0, s. by rewrite Nat.add_0_r.
Qed.

Lemma GetParam_loop_not_found Name Values i Names (Value : T) bFound' Value' :
  outcome (GetParam_loop Name Values i Names false Value)
  = Returned (bFound', Value') →
  bFound' = false → (Name ∉ Names) ∧ Value' = Value.
Proof.
  intros Hret ->. destruct (decide (Name ∈ Names)) as [Hin|Hin].
  - by pose proof (GetParam_loop_found _ _ _ _ _ _ _ _ Hret Hin).
  - rewrite GetParam_loop_absent, outcome_mret in Hret by done.
    split; [done|]. congruence.
Qed.

End GetParam_more.

Lemma Extract_loop_Returned except Values i Names names values seen r :
  outcome (Extract_loop except Values i Names names values seen) = Returned r →
  r.1.1 = names ++ filter (λ name, name ∉ except) Names ∧
  r.2 = list_to_set (filter (λ name, name ∉ except) Names) ∪ seen.
Proof.
  revert i names values seen.
  induction Names as [|name Names IH]; intros i names values seen Hret.
  - simpl in Hret. rewrite outcome_mret in Hret. injection Hret as <-. simpl.
    rewrite app_nil_r. split; [done|]. set_solver.
  - simpl in Hret. rewrite filter_cons.
    destruct (decide (name ∉ except)) as [Hn|Hn]; [|by apply IH in Hret].
    apply bind_Returned in Hret as (v & _ & Hret).
    apply IH in Hret as [-> ->]. rewrite <- app_assoc. split; [done|].
    set_solver.
Qed.

Lemma ExtractParametersExcept_Returned ExceptList this ps this' :
  outcome (ExtractParametersExcept ExceptList this) = Returned (ps, this') →
  ParamNames ps = filter (λ name, name ∉ ExceptList) (ParamNames (params this)) ∧
  this' = mkAnyParamManager (params this)
            (list_to_set (ParamNames ps) ∪ seen this).
Proof.
  unfold ExtractParametersExcept. intros Hret.
  apply bind_Returned in Hret as ([[names values] seen'] & Hloop & Hret).
  rewrite outcome_mret in Hret. injection Hret as <- <-.
  apply Extract_loop_Returned in Hloop as [Hnames Hseen]. simpl in *.
  assert (filter (λ name, name ∉ (list_to_set ExceptList : gset string))
            (ParamNames (params this))
          = filter (λ name, name ∉ ExceptList) (ParamNames (params this))) as Hf.
  { apply list_filter_iff. intros name. by rewrite elem_of_list_to_set. }
  rewrite Hf in *. by subst.
Qed.

(** X3.  Whatever returns, a getter or an extraction, leaves the managed
    parameters as they were and adds to the seen set the name asked for,
    or the names extracted, and nothing else. *)
Theorem manager_seen_grows (this : AnyParamManager) :
  (∀ (T : Type) (P : ParamType T) Name (Value : T) bRequired x this',
     outcome (GetParam Name Value bRequired this) = Returned (x, this') →
     params this' = params this ∧ seen this' = {[Name]} ∪ seen this) ∧
  (∀ ExceptList ps this',
     outcome (ExtractParametersExcept ExceptList this) = Returned (ps, this') →
     params this' = params this ∧
     seen this' = list_to_set (ParamNames ps) ∪ seen this).
Proof.
  split.
  - by intros T P Name Value bRequired x this' ->%GetParam_Returned.
  - by intros ExceptList ps this' [_ ->]%ExtractParametersExcept_Returned.
Qed.

Lemma manager_seen_grows_witness :
  params (mkAnyParamManager (mkAnyParams ["M"] ["16"]) ({["M"]} ∪ {["x"]}))
  = mkAnyParams ["M"] ["16"] ∧
  seen (mkAnyParamManager (mkAnyParams ["M"] ["16"]) ({["M"]} ∪ {["x"]}))
  = {["M"]} ∪ {["x"]}.
Proof.
  exact (proj1 (manager_seen_grows
           (mkAnyParamManager (mkAnyParams ["M"] ["16"]) {["x"]}))
           Z _ "M" 0%Z true 16%Z _ eq_refl).
Defined.

(** X4.  After a getter has returned for a name, the destructor reports
    what it would have reported before the call except that name: a name
    that was asked for, found or not, is never reported as unknown. *)
Theorem GetParam_then_destructor {T : Type} `{ParamType T}
    (Name : string) (Value : T) (bRequired : bool) (this this' : AnyParamManager)
    (x : T) :
  outcome (GetParam Name Value bRequired this) = Returned (x, this') →
  unknown this' = filter (λ name, name ≠ Name) (unknown this) ∧
  unknown_line Name ∉ log (AnyParamManager_destructor this').
Proof.
  intros ->%GetParam_Returned.
  assert (unknown (mkAnyParamManager (params this) ({[Name]} ∪ seen this))
          = filter (λ name, name ≠ Name) (unknown this)) as Hun.
  { unfold unknown. simpl. rewrite list_filter_filter.
    apply list_filter_iff. intros name. set_solver. }
  split; [done|].
  rewrite unknown_line_logged, Hun.
  by intros [? _]%list_elem_of_filter.
Qed.

Lemma GetParam_then_destructor_witness :
  unknown (mkAnyParamManager (mkAnyParams ["M"; "efSearch"] ["16"; "100"])
             ({["M"]} ∪ ∅))
  = filter (λ name, name ≠ "M")
      (unknown (mkAnyParamManager (mkAnyParams ["M"; "efSearch"] ["16"; "100"]) ∅)) ∧
  unknown_line "M" ∉
    log (AnyParamManager_destructor
           (mkAnyParamManager (mkAnyParams ["M"; "efSearch"] ["16"; "100"])
              ({["M"]} ∪ ∅))).
Proof.
  exact (GetParam_then_destructor "M" 0%Z true
           (mkAnyParamManager (mkAnyParams ["M"; "efSearch"] ["16"; "100"]) ∅)
           _ 16%Z eq_refl).
Defined.

(** X5.  After an extraction has returned, the destructor reports the
    names on the exception list that it would have reported before, and
    no other: the manager answers only for the names it kept.  With an
    empty exception list the destructor returns without a report. *)
Theorem ExtractParametersExcept_then_destructor
    (ExceptList : list string) (this this' : AnyParamManager) (ps : AnyParams) :
  outcome (ExtractParametersExcept ExceptList this) = Returned (ps, this') →
  unknown this' = filter (λ name, name ∈ ExceptList) (unknown this) ∧
  (ExceptList = [] → AnyParamManager_destructor this' = mret tt).
Proof.
  intros [Hnames ->]%ExtractParametersExcept_Returned.
  assert (unknown (mkAnyParamManager (params this)
                     (list_to_set (ParamNames ps) ∪ seen this))
          = filter (λ name, name ∈ ExceptList) (unknown this)) as Hun.
  { unfold unknown. simpl. rewrite list_filter_filter, Hnames.
    apply filter_ext_in. intros name Hin.
    rewrite not_elem_of_union, elem_of_list_to_set, list_elem_of_filter.
    destruct (decide (name ∈ ExceptList)); naive_solver. }
  split; [done|]. intros ->.
  rewrite destructor_unknown, Hun.
  assert (∀ l : list string, filter (λ name : string, name ∈ []) l = []) as ->;
    [|done].
  induction l as [|name l IH]; [done|].
  rewrite filter_cons, decide_False; [done|]. apply not_elem_of_nil.
Qed.

Lemma ExtractParametersExcept_then_destructor_witness :
  unknown (mkAnyParamManager (mkAnyParams ["a"; "b"; "c"] ["1"; "2"; "3"])
             ({["c"]} ∪ ({["b"]} ∪ ∅)))
  = filter (λ name, name ∈ ["a"])
      (unknown (mkAnyParamManager
                  (mkAnyParams ["a"; "b"; "c"] ["1"; "2"; "3"]) ∅)).
Proof.
  exact (proj1 (ExtractParametersExcept_then_destructor ["a"]
           (mkAnyParamManager (mkAnyParams ["a"; "b"; "c"] ["1"; "2"; "3"]) ∅)
           (mkAnyParamManager (mkAnyParams ["a"; "b"; "c"] ["1"; "2"; "3"])
              ({["c"]} ∪ ({["b"]} ∪ ∅)))
           (mkAnyParams ["b"; "c"] ["2"; "3"]) eq_refl)).
Defined.

(** The run of an extraction over a managed set with as many values as
    names. *)
Lemma ExtractParametersExcept_kept ExceptList this :
  length (ParamNames (params this)) = length (ParamValues (params this)) →
  ExtractParametersExcept ExceptList this
  = mret (mkAnyParams (kept ExceptList (params this)).*1
                      (kept ExceptList (params this)).*2,
          mkAnyParamManager (params this)
            (list_to_set (kept ExceptList (params this)).*1 ∪ seen this)).
Proof.
  intros Hlen. unfold ExtractParametersExcept.
  rewrite (Extract_loop_kept _ [] (ParamValues (params this))) by done.
  rewrite bind_mret. unfold kept. simpl.
  assert (filter (λ entry : string * string, entry.1 ∉ ExceptList)
            (zip (ParamNames (params this)) (ParamValues (params this)))
          = filter (λ entry : string * string,
                      entry.1 ∉ (list_to_set ExceptList : gset string))
              (zip (ParamNames (params this)) (ParamValues (params this))))
    as ->; [|done].
  apply list_filter_iff. intros entry. by rewrite elem_of_list_to_set.
Qed.

(** X6.  Over a managed set with as many values as names, an extraction
    can be repeated: the second extraction with the same exception list
    returns the same parameter set and leaves the manager as the first
    one left it. *)
Theorem ExtractParametersExcept_again
    (ExceptList : list string) (this : AnyParamManager) :
  length (ParamNames (params this)) = length (ParamValues (params this)) →
  ∃ ps this',
    ExtractParametersExcept ExceptList this = mret (ps, this') ∧
    ExtractParametersExcept ExceptList this' = mret (ps, this').
Proof.
  intros Hlen. eexists _, _. split; [by apply ExtractParametersExcept_kept|].
  rewrite ExtractParametersExcept_kept by done. simpl.
  do 3 f_equal. set_solver.
Qed.

Lemma ExtractParametersExcept_again_witness :
  ∃ ps this',
    ExtractParametersExcept ["a"]
      (mkAnyParamManager (mkAnyParams ["a"; "b"; "c"] ["1"; "2"; "3"]) ∅)
    = mret (ps, this') ∧
    ExtractParametersExcept ["a"] this' = mret (ps, this').
Proof.
  exact (ExtractParametersExcept_again ["a"]
           (mkAnyParamManager (mkAnyParams ["a"; "b"; "c"] ["1"; "2"; "3"]) ∅)
           eq_refl).
Defined.

(** X7.  Over a managed set with as many values as names, the extracted
    parameter set has as many values as names too, so that a manager can
    be constructed over it for a nested consumer; none of its names is on
    the exception list, each is a name of the managed set, and its names
    are distinct when those of the managed set are. *)
Theorem ExtractParametersExcept_managed
    (ExceptList : list string) (this : AnyParamManager) :
  length (ParamNames (params this)) = length (ParamValues (params this)) →
  ∃ ps this',
    ExtractParametersExcept ExceptList this = mret (ps, this') ∧
    AnyParamManager_new ps = mret (mkAnyParamManager ps ∅) ∧
    (∀ name, name ∈ ParamNames ps ↔
             name ∈ ParamNames (params this) ∧ name ∉ ExceptList) ∧
    (NoDup (ParamNames (params this)) → NoDup (ParamNames ps)).
Proof.
  intros Hlen. eexists _, _. split; [by apply ExtractParametersExcept_kept|].
  simpl. split_and!.
  - unfold AnyParamManager_new. simpl.
    by rewrite !length_fmap, Nat.eqb_refl.
  - intros name. rewrite kept_names, list_elem_of_filter by done. naive_solver.
  - rewrite kept_names by done. apply NoDup_filter.
Qed.

Lemma ExtractParametersExcept_managed_witness :
  ∃ ps this',
    ExtractParametersExcept ["a"]
      (mkAnyParamManager (mkAnyParams ["a"; "b"; "c"] ["1"; "2"; "3"]) ∅)
    = mret (ps, this') ∧
    AnyParamManager_new ps = mret (mkAnyParamManager ps ∅) ∧
    (∀ name, name ∈ ParamNames ps ↔ name ∈ ["a"; "b"; "c"] ∧ name ∉ ["a"]) ∧
    (NoDup ["a"; "b"; "c"] → NoDup (ParamNames ps)).
Proof.
  exact (ExtractParametersExcept_managed ["a"]
           (mkAnyParamManager (mkAnyParams ["a"; "b"; "c"] ["1"; "2"; "3"]) ∅)
           eq_refl).
Defined.

(** ** ChangeParam, continued *)

Section ChangeParam_more.
Context {T : Type} `{ParamType T}.

Lemma ChangeParam_loop_first_any Name (Value : T) i pre post this :
  Name ∉ pre →
  ChangeParam_loop Name Value i (pre ++ Name :: post) this
  = if decide (i + length pre < length (ParamValues this))%nat
    then (mkAnyParams (ParamNames this)
            (<[i + length pre:=stream_out Value]> (ParamValues this)), mret tt)
    else (this, undefined).
Proof.
  revert i. induction pre as [|n pre IH]; intros i Habs; simpl.
  - rewrite Nat.add_0_r. by rewrite decide_True by done.
  - apply not_elem_of_cons in Habs as [Hne Habs].
    rewrite decide_False by done.
    replace (i + S (length pre)) with (S i + length pre) by lia.
    by apply IH.
Qed.

Lemma ChangeParam_first Name (Value : T) pre post this :
  ParamNames this = pre ++ Name :: post → Name ∉ pre →
  ChangeParam Name Value this
  = if decide (length pre < length (ParamValues this))%nat
    then (mkAnyParams (ParamNames this)
            (<[length pre:=stream_out Value]> (ParamValues this)), mret tt)
    else (this, undefined).
Proof.
  intros Hnames Habs. unfold ChangeParam. rewrite Hnames at 1.
  by rewrite ChangeParam_loop_first_any.
Qed.

Lemma ChangeParam_first_state Name (Value : T) pre post this :
  ParamNames this = pre ++ Name :: post → Name ∉ pre →
  (ChangeParam Name Value this).1
  = mkAnyParams (ParamNames this)
      (<[length pre:=stream_out Value]> (ParamValues this)).
Proof.
  intros Hnames Habs. rewrite (ChangeParam_first _ _ pre post) by done.
  case_decide; [done|]. simpl.
  rewrite list_insert_ge by lia. by destruct this.
Qed.

Lemma ChangeParam_absent Name (Value : T) this :
  Name ∉ ParamNames this →
  ChangeParam Name Value this = (this, LOG_FATAL (ParameterNotFoundError Name)).
Proof. apply ChangeParam_loop_absent. Qed.

Lemma ChangeParam_names Name (Value : T) this :
  ParamNames (ChangeParam Name Value this).1 = ParamNames this ∧
  length (ParamValues (ChangeParam Name Value this).1)
  = length (ParamValues this).
Proof.
  destruct (decide (Name ∈ ParamNames this)) as [Hin|Hin].
  - apply list_elem_of_split_l in Hin as (pre & post & Hnames & Habs).
    rewrite (ChangeParam_first_state _ _ pre post) by done. simpl.
    by rewrite length_insert.
  - by rewrite ChangeParam_absent.
Qed.

End ChangeParam_more.

(** X8.  ChangeParam writes out of the bounds of the values exactly when
    the first entry with the name lies at an index that has no value,
    which takes a set with fewer values than names.  In a set with as many
    values as names it never does. *)
Theorem ChangeParam_out_of_bounds {T : Type} `{ParamType T}
    (Name : string) (Value : T) (this : AnyParams) :
  (outcome (ChangeParam Name Value this).2 = OutOfBounds ↔
   ∃ pre post, ParamNames this = pre ++ Name :: post ∧ (Name ∉ pre) ∧
               (length (ParamValues this) ≤ length pre)%nat) ∧
  (length (ParamNames this) = length (ParamValues this) →
   outcome (ChangeParam Name Value this).2 ≠ OutOfBounds).
Proof.
  assert (outcome (ChangeParam Name Value this).2 = OutOfBounds →
    ∃ pre post, ParamNames this = pre ++ Name :: post ∧ (Name ∉ pre) ∧
                (length (ParamValues this) ≤ length pre)%nat) as Hoob.
  { destruct (decide (Name ∈ ParamNames this)) as [Hin|Hin].
    2:{ by rewrite ChangeParam_absent. }
    apply list_elem_of_split_l in Hin as (pre & post & Hnames & Habs).
    rewrite (ChangeParam_first _ _ pre post) by done.
    case_decide; [done|]. intros _. exists pre, post. split_and!; [done..|lia]. }
  split.
  - split; [done|]. intros (pre & post & Hnames & Habs & Hlen).
    rewrite (ChangeParam_first _ _ pre post) by done.
    by rewrite decide_False by lia.
  - intros Hlen (pre & post & Hnames & Habs & Hshort)%Hoob.
    rewrite Hnames, length_app in Hlen. simpl in Hlen. lia.
Qed.

Lemma ChangeParam_out_of_bounds_witness :
  outcome (ChangeParam "b" 5%Z (AnyParams_Names_Values ["a"; "b"] ["1"])).2
  = OutOfBounds ∧
  outcome (ChangeParam "b" 5%Z (AnyParams_Names_Values ["a"; "b"] ["1"; "2"])).2
  ≠ OutOfBounds.
Proof.
  split.
  - refine (proj2 (proj1 (ChangeParam_out_of_bounds "b" 5%Z
              (AnyParams_Names_Values ["a"; "b"] ["1"]))) _).
    exists ["a"], []. split_and!; [reflexivity| |simpl; lia].
    intros Hin%list_elem_of_singleton. discriminate.
  - exact (proj2 (ChangeParam_out_of_bounds "b" 5%Z
             (AnyParams_Names_Values ["a"; "b"] ["1"; "2"])) eq_refl).
Defined.

(** X9.  ChangeParam keeps the names and the number of values.  Of two
    changes of the same name the last one wins, and changes of different
    names can be made in either order: the set after the two calls is the
    same. *)
Theorem ChangeParam_composes {T1 T2 : Type} `{ParamType T1} `{ParamType T2}
    (Name1 Name2 : string) (Value1 : T1) (Value2 : T2) (this : AnyParams) :
  ParamNames (ChangeParam Name1 Value1 this).1 = ParamNames this ∧
  length (ParamValues (ChangeParam Name1 Value1 this).1)
  = length (ParamValues this) ∧
  (ChangeParam Name1 Value2 (ChangeParam Name1 Value1 this).1).1
  = (ChangeParam Name1 Value2 this).1 ∧
  (Name1 ≠ Name2 →
   (ChangeParam Name2 Value2 (ChangeParam Name1 Value1 this).1).1
   = (ChangeParam Name1 Value1 (ChangeParam Name2 Value2 this).1).1).
Proof.
  destruct (ChangeParam_names Name1 Value1 this) as [Hn1 Hl1].
  destruct (ChangeParam_names Name2 Value2 this) as [Hn2 Hl2].
  split_and!; [done..| |].
  - destruct (decide (Name1 ∈ ParamNames this)) as [Hin|Hin].
    2:{ by rewrite (ChangeParam_absent Name1 Value1). }
    apply list_elem_of_split_l in Hin as (pre & post & Hnames & Habs).
    rewrite (ChangeParam_first_state Name1 Value2 pre post
               (ChangeParam Name1 Value1 this).1) by (rewrite ?Hn1; done).
    rewrite (ChangeParam_first_state Name1 Value2 pre post this) by done.
    rewrite Hn1, (ChangeParam_first_state Name1 Value1 pre post this) by done.
    simpl. by rewrite list_insert_insert_eq.
  - intros Hne.
    destruct (decide (Name1 ∈ ParamNames this)) as [Hin1|Hin1].
    2:{ rewrite (ChangeParam_absent Name1 Value1 this) by done. simpl.
        by rewrite (ChangeParam_absent Name1 Value1) by by rewrite Hn2. }
    destruct (decide (Name2 ∈ ParamNames this)) as [Hin2|Hin2].
    2:{ rewrite (ChangeParam_absent Name2 Value2 this) by done. simpl.
        by rewrite (ChangeParam_absent Name2 Value2) by by rewrite Hn1. }
    apply list_elem_of_split_l in Hin1 as (pre1 & post1 & Hnames1 & Habs1).
    apply list_elem_of_split_l in Hin2 as (pre2 & post2 & Hnames2 & Habs2).
    rewrite (ChangeParam_first_state Name2 Value2 pre2 post2
               (ChangeParam Name1 Value1 this).1) by (rewrite ?Hn1; done).
    rewrite (ChangeParam_first_state Name1 Value1 pre1 post1
               (ChangeParam Name2 Value2 this).1) by (rewrite ?Hn2; done).
    rewrite Hn1, Hn2.
    rewrite (ChangeParam_first_state Name1 Value1 pre1 post1 this) by done.
    rewrite (ChangeParam_first_state Name2 Value2 pre2 post2 this) by done.
    simpl. f_equal. apply list_insert_insert_ne.
    intros Hsame.
    assert (ParamNames this !! length pre1 = Some Name1) as H1
      by (rewrite Hnames1; apply list_lookup_middle; done).
    assert (ParamNames this !! length pre2 = Some Name2) as H2
      by (rewrite Hnames2; apply list_lookup_middle; done).
    rewrite Hsame in H2. congruence.
Qed.

Lemma ChangeParam_composes_witness :
  (ChangeParam "b" "x" (ChangeParam "a" 5%Z (mkAnyParams ["a"; "b"] ["1"; "2"])).1).1
  = (ChangeParam "a" 5%Z (ChangeParam "b" "x" (mkAnyParams ["a"; "b"] ["1"; "2"])).1).1.
Proof.
  refine (proj2 (proj2 (proj2 (ChangeParam_composes "a" "b" 5%Z "x"
            (mkAnyParams ["a"; "b"] ["1"; "2"])))) _).
  discriminate.
Defined.

(** ** The getters, continued *)

Section GetParam_runs.
Context {T : Type} `{ParamType T}.

(** The run of a getter when one entry has the name. *)
Lemma GetParam_unique Name (Value : T) bRequired this pre post s :
  ParamNames (params this) = pre ++ Name :: post →
  Name ∉ pre → Name ∉ post →
  ParamValues (params this) !! length pre = Some s →
  GetParam Name Value bRequired this
  = x ← ConvertStrToValue s;
    LOG INFO (trace Name x);;
    mret (x, mkAnyParamManager (params this) ({[Name]} ∪ seen this)).
Proof.
  intros Hnames Hpre Hpost Hs. unfold GetParam.
  rewrite Hnames, GetParam_loop_app.
  rewrite GetParam_loop_absent, bind_mret by done.
  simpl. rewrite decide_True by done.
  rewrite (at_index_Some _ _ s), bind_mret by done.
  rewrite !bind_assoc. apply bind_ext. intros x.
  by rewrite GetParam_loop_absent, bind_mret by done.
Qed.

(** The run of a getter when the last entry with the name and those
    before it convert. *)
Lemma GetParam_last Name (Value : T) bRequired this before post s x :
  ParamNames (params this) = before ++ Name :: post → Name ∉ post →
  ParamValues (params this) !! length before = Some s →
  ConvertStrToValue s = mret x →
  (∀ j, before !! j = Some Name →
     ∃ s' y, ParamValues (params this) !! j = Some s' ∧
             ConvertStrToValue (T:=T) s' = mret y) →
  GetParam Name Value bRequired this = resolved Name x this.
Proof.
  intros Hnames Hpost Hs Hx Hbefore.
  rewrite (GetParam_after_loop _ _ _ _ true x); [done|].
  rewrite Hnames, GetParam_loop_app.
  destruct (GetParam_loop_converts Name (ParamValues (params this)) 0 before
              false Value) as (b & v & ->); [done|].
  rewrite bind_mret. simpl. by apply (GetParam_loop_match _ _ _ _ s).
Qed.

End GetParam_runs.

(** Neither conversion of the code indexes a vector. *)
Lemma ConvertStrToValue_primary_in_bounds {T : Type} `{IStream T} (s : string) :
  outcome (ConvertStrToValue_primary (T:=T) s) ≠ OutOfBounds.
Proof.
  unfold ConvertStrToValue_primary.
  destruct (extracted (stream_in s)); [|done].
  by destruct (eofbit (stream_in s)).
Qed.

(** X10.  A manager that has been constructed never reads a value out of
    bounds: once the constructor has checked that there are as many values
    as names, every getter and every extraction over these parameters,
    whatever the seen set, ends by returning or by a fatal failure (for a
    type whose conversion does not index a vector itself, as those of the
    code). *)
Theorem constructed_manager_in_bounds {T : Type} `{ParamType T}
    (ps : AnyParams) (this0 : AnyParamManager) :
  outcome (AnyParamManager_new ps) = Returned this0 →
  (∀ s, outcome (ConvertStrToValue (T:=T) s) ≠ OutOfBounds) →
  this0 = mkAnyParamManager ps ∅ ∧
  ∀ seen,
    (∀ Name (Value : T) bRequired,
       outcome (GetParam Name Value bRequired (mkAnyParamManager ps seen))
       ≠ OutOfBounds) ∧
    (∀ ExceptList,
       outcome (ExtractParametersExcept ExceptList (mkAnyParamManager ps seen))
       ≠ OutOfBounds).
Proof.
  unfold AnyParamManager_new. intros Hnew Hconv.
  destruct (length (ParamNames ps) =? length (ParamValues ps))%nat eqn:Hlen;
    [|done].
  apply Nat.eqb_eq in Hlen. simpl in Hnew. rewrite outcome_mret in Hnew.
  split; [congruence|]. intros seen. split.
  - intros Name Value bRequired. unfold GetParam. simpl.
    intros [Hoob|([b v] & _ & Hoob)]%bind_OutOfBounds.
    { revert Hoob. apply GetParam_loop_in_bounds; [done|]. simpl. lia. }
    apply bind_OutOfBounds in Hoob as [Hoob|([] & _ & Hoob)].
    { by destruct (negb b && bRequired). }
    by apply bind_OutOfBounds in Hoob as [Hoob|([] & _ & Hoob)].
  - intros ExceptList. by rewrite ExtractParametersExcept_kept.
Qed.

Lemma constructed_manager_in_bounds_witness :
  mkAnyParamManager (mkAnyParams ["M"] ["16"]) ∅
  = mkAnyParamManager (mkAnyParams ["M"] ["16"]) ∅ ∧
  ∀ seen,
    (∀ Name (Value : Z) bRequired,
       outcome (GetParam Name Value bRequired
                  (mkAnyParamManager (mkAnyParams ["M"] ["16"]) seen))
       ≠ OutOfBounds) ∧
    (∀ ExceptList,
       outcome (ExtractParametersExcept ExceptList
                  (mkAnyParamManager (mkAnyParams ["M"] ["16"]) seen))
       ≠ OutOfBounds).
Proof.
  exact (constructed_manager_in_bounds (T:=Z) (mkAnyParams ["M"] ["16"])
           (mkAnyParamManager (mkAnyParams ["M"] ["16"]) ∅) eq_refl
           ConvertStrToValue_primary_in_bounds).
Defined.

(** X11.  Where a failure of a getter comes from: a getter fails either
    with the MissingRequiredParameterError of the name, and then the name
    was required and no entry has it, or with the failure of the
    conversion of the value of an entry that has the name.  An optional
    parameter read as a string never fails. *)
Theorem GetParam_failures {T : Type} `{ParamType T}
    (Name : string) (Value : T) (bRequired : bool) (this : AnyParamManager)
    (f : Failure) :
  (outcome (GetParam Name Value bRequired this) = Aborted f →
   (f = MissingRequiredParameterError Name ∧ bRequired = true ∧
    Name ∉ ParamNames (params this)) ∨
   (∃ i s, ParamNames (params this) !! i = Some Name ∧
           ParamValues (params this) !! i = Some s ∧
           outcome (ConvertStrToValue (T:=T) s) = Aborted f)) ∧
  (∀ default : string, ¬ failed (GetParamOptional Name default this)).
Proof.
  split.
  - unfold GetParam. intros [Hf|([b v] & Hloop & Hf)]%bind_Aborted.
    { right. by apply GetParam_loop_Aborted in Hf as (j & s & ? & ? & ?);
        exists j, s. }
    apply bind_Aborted in Hf as [Hf|([] & _ & Hf)].
    + left. destruct b, bRequired; try done. simpl in Hf.
      injection Hf as <-.
      by destruct (GetParam_loop_not_found _ _ _ _ _ _ _ Hloop eq_refl).
    + by apply bind_Aborted in Hf as [Hf|([] & _ & Hf)].
  - intros default [f' Hf]. unfold GetParamOptional, GetParam in Hf.
    apply bind_Aborted in Hf as [Hf|([b v] & Hloop & Hf)].
    { by apply GetParam_loop_Aborted in Hf as (j & s & _ & _ & ?). }
    apply bind_Aborted in Hf as [Hf|([] & _ & Hf)].
    { by rewrite andb_false_r in Hf. }
    by apply bind_Aborted in Hf as [Hf|([] & _ & Hf)].
Qed.

Lemma GetParam_failures_witness :
  (ParameterConversionError "42x" "i" = MissingRequiredParameterError "M" ∧
   true = true ∧ "M" ∉ ["M"]) ∨
  (∃ i s, ["M"] !! i = Some "M" ∧ ["42x"] !! i = Some s ∧
          outcome (ConvertStrToValue (T:=Z) s)
          = Aborted (ParameterConversionError "42x" "i")).
Proof.
  exact (proj1 (GetParam_failures "M" 0%Z true
           (mkAnyParamManager (mkAnyParams ["M"] ["42x"]) ∅)
           (ParameterConversionError "42x" "i")) eq_refl).
Defined.

Lemma bind_outcome {A B} (m : Run A) (k : A → Run B) a :
  outcome m = Returned a → outcome (m ≫= k) = outcome (k a).
Proof.
  rewrite bind_unfold. unfold Log.bind. by intros ->.
Qed.

(** X12.  A getter can be called again: after a getter has returned, the
    same call on the manager it left is the same run, with the same lines
    logged and the same value, and leaves the manager as it is. *)
Theorem GetParam_again {T : Type} `{ParamType T}
    (Name : string) (Value : T) (bRequired : bool) (this this' : AnyParamManager)
    (x : T) :
  outcome (GetParam Name Value bRequired this) = Returned (x, this') →
  GetParam Name Value bRequired this' = GetParam Name Value bRequired this ∧
  outcome (GetParam Name Value bRequired this') = Returned (x, this').
Proof.
  intros Hret. pose proof (GetParam_Returned _ _ _ _ _ _ Hret) as ->.
  assert (GetParam Name Value bRequired
            (mkAnyParamManager (params this) ({[Name]} ∪ seen this))
          = GetParam Name Value bRequired this) as Hsame; [|by rewrite Hsame].
  unfold GetParam. simpl.
  by replace ({[Name]} ∪ ({[Name]} ∪ seen this)) with ({[Name]} ∪ seen this)
    by set_solver.
Qed.

Lemma GetParam_again_witness :
  GetParam "M" 0%Z true
    (mkAnyParamManager (mkAnyParams ["M"] ["16"]) ({["M"]} ∪ ∅))
  = GetParam "M" 0%Z true (mkAnyParamManager (mkAnyParams ["M"] ["16"]) ∅) ∧
  outcome (GetParam "M" 0%Z true
             (mkAnyParamManager (mkAnyParams ["M"] ["16"]) ({["M"]} ∪ ∅)))
  = Returned (16%Z, mkAnyParamManager (mkAnyParams ["M"] ["16"]) ({["M"]} ∪ ∅)).
Proof.
  exact (GetParam_again "M" 0%Z true
           (mkAnyParamManager (mkAnyParams ["M"] ["16"]) ∅)
           (mkAnyParamManager (mkAnyParams ["M"] ["16"]) ({["M"]} ∪ ∅))
           16%Z eq_refl).
Defined.

(** X13.  What ChangeParam writes, a getter reads: in a parameter set
    with distinct names (and as many values), after the value of a name
    has been changed, a getter for that name converts the text that
    ChangeParam has written, and a getter for any other name returns what
    it returned before the change. *)
Theorem ChangeParam_then_GetParam {T1 T2 : Type} `{ParamType T1} `{ParamType T2}
    (Name : string) (Value1 : T1) (Value2 : T2) (bRequired : bool)
    (ps : AnyParams) (seen : gset string) :
  length (ParamNames ps) = length (ParamValues ps) →
  NoDup (ParamNames ps) →
  Name ∈ ParamNames ps →
  GetParam Name Value2 bRequired
    (mkAnyParamManager (ChangeParam Name Value1 ps).1 seen)
  = (x ← ConvertStrToValue (stream_out Value1);
     LOG INFO (trace Name x);;
     mret (x, mkAnyParamManager (ChangeParam Name Value1 ps).1
                ({[Name]} ∪ seen))) ∧
  ∀ Name' x this',
    Name' ≠ Name →
    outcome (GetParam Name' Value2 bRequired (mkAnyParamManager ps seen))
    = Returned (x, this') →
    outcome (GetParam Name' Value2 bRequired
               (mkAnyParamManager (ChangeParam Name Value1 ps).1 seen))
    = Returned (x, mkAnyParamManager (ChangeParam Name Value1 ps).1
                     ({[Name']} ∪ seen)).
Proof.
  intros Hlen Hnd Hin.
  apply list_elem_of_split_l in Hin as (pre & post & Hnames & Hpre).
  assert (Name ∉ post) as Hpost.
  { rewrite Hnames in Hnd. apply NoDup_app in Hnd as (_ & _ & Hnd).
    by apply NoDup_cons in Hnd as [? _]. }
  assert (length pre < length (ParamValues ps)) as Hlt.
  { rewrite <- Hlen, Hnames, length_app. simpl. lia. }
  rewrite (ChangeParam_first_state _ _ pre post) by done. split.
  - refine (GetParam_unique Name Value2 bRequired
              (mkAnyParamManager
                 (mkAnyParams (ParamNames ps)
                    (<[length pre:=stream_out Value1]> (ParamValues ps))) seen)
              pre post (stream_out Value1) Hnames Hpre Hpost _).
    simpl. by apply list_lookup_insert_eq.
  - intros Name' x this' Hne Hret. unfold GetParam in *. simpl in *.
    rewrite (GetParam_loop_ext _ _ (ParamValues ps)).
    2:{ intros j Hj. simpl. apply list_lookup_insert_ne. intros <-.
        rewrite Hnames, list_lookup_middle in Hj by done. congruence. }
    apply bind_Returned in Hret as ([b v] & Hloop & Hret).
    rewrite (bind_outcome _ _ _ Hloop).
    apply bind_Returned in Hret as ([] & Hreq & Hret).
    rewrite (bind_outcome _ _ _ Hreq).
    apply bind_Returned in Hret as ([] & Hlog & Hret).
    rewrite (bind_outcome _ _ _ Hlog).
    rewrite outcome_mret in *. by injection Hret as -> _.
Qed.

Lemma ChangeParam_then_GetParam_witness :
  GetParam "M" "" true
    (mkAnyParamManager
       (ChangeParam "M" "32" (mkAnyParams ["M"; "efSearch"] ["16"; "100"])).1 ∅)
  = (x ← ConvertStrToValue (stream_out "32");
     LOG INFO (trace "M" x);;
     mret (x, mkAnyParamManager
                (ChangeParam "M" "32"
                   (mkAnyParams ["M"; "efSearch"] ["16"; "100"])).1
                ({["M"]} ∪ ∅))).
Proof.
  refine (proj1 (ChangeParam_then_GetParam "M" "32" "" true
            (mkAnyParams ["M"; "efSearch"] ["16"; "100"]) ∅ eq_refl _ _)).
  - simpl. apply NoDup_cons. split; [|apply NoDup_singleton].
    intros Hin%list_elem_of_singleton. discriminate.
  - simpl. left.
Defined.

(** X14.  With a name that occurs twice, ChangeParam and the getters do
    not meet: ChangeParam writes the first entry with the name and a
    getter returns the last one, so that after the change a getter (here
    for a string) still returns the old value of the last entry. *)
Theorem ChangeParam_then_GetParam_duplicate {T : Type} `{ParamType T}
    (Name : string) (Value : T) (default : string) (bRequired : bool)
    (ps : AnyParams) (seen : gset string) (pre mid post : list string)
    (s : string) :
  ParamNames ps = pre ++ Name :: mid ++ Name :: post →
  Name ∉ pre → Name ∉ post →
  length (ParamNames ps) = length (ParamValues ps) →
  ParamValues ps !! (length pre + S (length mid)) = Some s →
  GetParam Name default bRequired
    (mkAnyParamManager (ChangeParam Name Value ps).1 seen)
  = mkRun [{| severity := INFO; text := trace Name s |}]
      (Returned (s, mkAnyParamManager (ChangeParam Name Value ps).1
                      ({[Name]} ∪ seen))).
Proof.
  intros Hnames Hpre Hpost Hlen Hs.
  rewrite (ChangeParam_first_state _ _ pre (mid ++ Name :: post)) by done.
  refine (GetParam_last Name default bRequired
            (mkAnyParamManager
               (mkAnyParams (ParamNames ps)
                  (<[length pre:=stream_out Value]> (ParamValues ps))) seen)
            (pre ++ Name :: mid) post s s _ Hpost _ eq_refl _); simpl.
  - by rewrite Hnames, <- app_assoc.
  - rewrite length_app. simpl. by rewrite list_lookup_insert_ne by lia.
  - intros j Hj. apply lookup_lt_Some in Hj.
    destruct (lookup_lt_is_Some_2
                (<[length pre:=stream_out Value]> (ParamValues ps)) j)
      as [s' Hs'].
    { rewrite length_app in Hj. simpl in Hj.
      rewrite length_insert, <- Hlen, Hnames, length_app. simpl.
      rewrite length_app. simpl. lia. }
    by exists s', s'.
Qed.

Lemma ChangeParam_then_GetParam_duplicate_witness :
  GetParam "x" "" true
    (mkAnyParamManager
       (ChangeParam "x" 5%Z (mkAnyParams ["x"; "x"] ["1"; "2"])).1 ∅)
  = mkRun [{| severity := INFO; text := trace "x" "2" |}]
      (Returned ("2",
                 mkAnyParamManager
                   (ChangeParam "x" 5%Z (mkAnyParams ["x"; "x"] ["1"; "2"])).1
                   ({["x"]} ∪ ∅))).
Proof.
  refine (ChangeParam_then_GetParam_duplicate "x" 5%Z "" true
            (mkAnyParams ["x"; "x"] ["1"; "2"]) ∅ [] [] [] "2"
            eq_refl _ _ eq_refl eq_refl); apply not_elem_of_nil.
Defined.

(** ** Writing and reading an [int] *)

Lemma Int_digit_char (x : N) :
  (x < 10)%N → Int.digit (pretty_N_char x) = Some (Z.of_N x).
Proof.
  intros Hx. destruct x as [|p]; [reflexivity|].
  do 4 (try destruct p as [p|p|]); try reflexivity; lia.
Qed.

Lemma Int_digit_not_space c d :
  Int.digit c = Some d → Int.isspace c = false ∧ c ≠ "-"%char ∧ c ≠ "+"%char.
Proof.
  destruct c as [[] [] [] [] [] [] [] []]; vm_compute; intros Hd;
    try discriminate Hd; split_and!; done.
Qed.

(** Reading back the digits that [operator<<] has written. *)
Lemma Int_digits_pretty_go (x : N) :
  ∃ k : nat, ∀ acc s,
    Int.digits acc (pretty_N_go x s)
    = Int.digits (acc * 10 ^ Z.of_nat k + Z.of_N x)%Z s.
Proof.
  induction (N.lt_wf_0 x) as [x _ IH].
  destruct (decide (x = 0)%N) as [->|Hpos].
  { exists 0. intros acc s. rewrite pretty_N_go_0. f_equal. simpl. lia. }
  destruct (IH (x `div` 10)%N) as [k Hk]; [apply N.div_lt; lia|].
  exists (S k). intros acc s.
  rewrite pretty_N_go_step, Hk by lia. simpl.
  rewrite Int_digit_char by (apply N.mod_lt; lia). f_equal.
  pose proof (N.div_mod' x 10) as Hx. apply (f_equal Z.of_N) in Hx.
  rewrite N2Z.inj_add, N2Z.inj_mul in Hx.
  rewrite Nat2Z.inj_succ, Z.pow_succ_r by lia.
  change (Z.of_N 10) with 10%Z in Hx. rewrite Hx. ring.
Qed.

Lemma pretty_N_go_digit (x : N) s :
  (0 < x)%N → ∃ c s' d, pretty_N_go x s = String c s' ∧ Int.digit c = Some d.
Proof.
  revert s. induction (N.lt_wf_0 x) as [x _ IH]. intros s Hpos.
  rewrite pretty_N_go_step by done.
  destruct (decide (x `div` 10 = 0)%N) as [->|Hdiv].
  - rewrite pretty_N_go_0. eexists _, _, _. split; [done|].
    apply Int_digit_char, N.mod_lt. lia.
  - apply IH; [apply N.div_lt; lia|by apply N.neq_0_lt_0].
Qed.

Lemma Int_number_pretty (negative : bool) (p : positive) :
  Int.number negative (pretty_N_go (N.pos p) "")
  = mkExtraction
      (if (Int.min <=? (if negative then - Z.pos p else Z.pos p))%Z
          && ((if negative then - Z.pos p else Z.pos p) <=? Int.max)%Z
       then Some (if negative then - Z.pos p else Z.pos p)%Z else None)
      "" true.
Proof.
  destruct (pretty_N_go_digit (N.pos p) "") as (c & s' & d & Hs & Hd); [lia|].
  destruct (Int_digits_pretty_go (N.pos p)) as [k Hk].
  pose proof (Hk 0%Z "") as Hdigits. rewrite Hs in Hdigits.
  simpl in Hdigits. rewrite Hd in Hdigits.
  replace (10 * 0 + d)%Z with d in Hdigits by lia.
  replace (0 * 10 ^ Z.of_nat k + Z.pos p)%Z with (Z.pos p) in Hdigits by lia.
  unfold Int.number. rewrite Hs, Hd, Hdigits. done.
Qed.

Lemma Int_extract_pretty (z : Z) :
  Int.extract (pretty z)
  = mkExtraction (if (Int.min <=? z)%Z && (z <=? Int.max)%Z then Some z else None)
      "" true.
Proof.
  destruct z as [|p|p]; [done| |].
  - change (pretty (Z.pos p)) with (pretty_N_go (N.pos p) "").
    destruct (pretty_N_go_digit (N.pos p) "") as (c & s' & d & Hs & Hd); [lia|].
    destruct (Int_digit_not_space _ _ Hd) as (Hsp & Hminus & Hplus).
    assert (Int.extract (pretty_N_go (N.pos p) "")
            = Int.number false (pretty_N_go (N.pos p) "")) as ->.
    { unfold Int.extract. rewrite Hs. simpl. rewrite Hsp.
      destruct c as [[] [] [] [] [] [] [] []]; try done. }
    by rewrite Int_number_pretty.
  - change (pretty (Z.neg p)) with (String "-" (pretty_N_go (N.pos p) "")).
    change (Int.extract (String "-" (pretty_N_go (N.pos p) "")))
      with (Int.number true (pretty_N_go (N.pos p) "")).
    by rewrite Int_number_pretty.
Qed.

Lemma ConvertStrToValue_pretty (z : Z) :
  (Int.min ≤ z ≤ Int.max)%Z → ConvertStrToValue (stream_out z) = mret z.
Proof.
  intros [Hmin Hmax]. simpl. unfold ConvertStrToValue_primary. simpl.
  rewrite Int_extract_pretty. simpl.
  apply Z.leb_le in Hmin, Hmax. by rewrite Hmin, Hmax.
Qed.

(** X15.  An [int] or a string that ChangeParam writes is read back by a
    getter of the same type: in a parameter set with distinct names (and
    as many values), after the value of a name has been changed to a
    32-bit integer, or to a string, a getter for that name returns that
    integer, or that string. *)
Theorem ChangeParam_read_back (Name : string) (bRequired : bool)
    (ps : AnyParams) (seen : gset string) :
  length (ParamNames ps) = length (ParamValues ps) →
  NoDup (ParamNames ps) →
  Name ∈ ParamNames ps →
  (∀ z Value : Z, (Int.min ≤ z ≤ Int.max)%Z →
     GetParam Name Value bRequired
       (mkAnyParamManager (ChangeParam Name z ps).1 seen)
     = mkRun [{| severity := INFO; text := trace Name z |}]
         (Returned (z, mkAnyParamManager (ChangeParam Name z ps).1
                         ({[Name]} ∪ seen)))) ∧
  (∀ s Value : string,
     GetParam Name Value bRequired
       (mkAnyParamManager (ChangeParam Name s ps).1 seen)
     = mkRun [{| severity := INFO; text := trace Name s |}]
         (Returned (s, mkAnyParamManager (ChangeParam Name s ps).1
                         ({[Name]} ∪ seen)))).
Proof.
  intros Hlen Hnd Hin.
  apply list_elem_of_split_l in Hin as (pre & post & Hnames & Hpre).
  assert (Name ∉ post) as Hpost.
  { rewrite Hnames in Hnd. apply NoDup_app in Hnd as (_ & _ & Hnd).
    by apply NoDup_cons in Hnd as [? _]. }
  assert (length pre < length (ParamValues ps)) as Hlt.
  { rewrite <- Hlen, Hnames, length_app. simpl. lia. }
  split.
  - intros z Value Hz.
    rewrite (ChangeParam_first_state _ _ pre post) by done.
    rewrite (GetParam_unique Name Value bRequired _ pre post (stream_out z));
      [|done..|by apply list_lookup_insert_eq].
    by rewrite ConvertStrToValue_pretty, bind_mret by done.
  - intros s Value.
    rewrite (ChangeParam_first_state _ _ pre post) by done.
    by rewrite (GetParam_unique Name Value bRequired _ pre post (stream_out s));
      [|done..|by apply list_lookup_insert_eq].
Qed.

Lemma ChangeParam_read_back_witness :
  GetParam "M" 0%Z true
    (mkAnyParamManager
       (ChangeParam "M" (-32)%Z (mkAnyParams ["M"; "efSearch"] ["16"; "100"])).1 ∅)
  = mkRun [{| severity := INFO; text := trace "M" (-32)%Z |}]
      (Returned ((-32)%Z,
                 mkAnyParamManager
                   (ChangeParam "M" (-32)%Z
                      (mkAnyParams ["M"; "efSearch"] ["16"; "100"])).1
                   ({["M"]} ∪ ∅))).
Proof.
  refine (proj1 (ChangeParam_read_back "M" true
            (mkAnyParams ["M"; "efSearch"] ["16"; "100"]) ∅ eq_refl _ _)
            (-32)%Z 0%Z _).
  - simpl. apply NoDup_cons. split; [|apply NoDup_singleton].
    intros Hin%list_elem_of_singleton. discriminate.
  - simpl. left.
  - unfold Int.min, Int.max. lia.
Defined.

(** ** From the tokens to the getters *)

(** X16.  What the tokens give, a getter reads: when the constructor from
    tokens has returned a parameter set, a getter for the name of any of
    the tokens, reading a string, returns the value of that token, over
    any manager of that set. *)
Theorem MethodDesc_then_GetParam
    (split : string → ascii → bool * list string) (tokens : list string)
    (ps : AnyParams) (token : string) (p : string * string)
    (default : string) (bRequired : bool) (seen : gset string) :
  outcome (AnyParams_MethodDesc split tokens) = Returned ps →
  token ∈ tokens → splits split token p →
  GetParam p.1 default bRequired (mkAnyParamManager ps seen)
  = mkRun [{| severity := INFO; text := trace p.1 p.2 |}]
      (Returned (p.2, mkAnyParamManager ps ({[p.1]} ∪ seen))).
Proof.
  intros (pairs & Hall & Hnd & ->)%MethodDesc_returned Hin Hs.
  apply list_elem_of_lookup in Hin as [i Hi].
  destruct (Forall2_lookup_l _ _ _ _ _ Hall Hi) as (q & Hq & Hs').
  rewrite (splits_functional _ _ _ _ Hs' Hs) in Hq. clear q Hs'.
  apply list_elem_of_split_length in Hq as (pre & post & -> & ->).
  rewrite fmap_app, fmap_cons in Hnd.
  apply NoDup_app in Hnd as (_ & Hpre & Hpost).
  apply NoDup_cons in Hpost as [Hpost _].
  rewrite (GetParam_unique p.1 default bRequired _ pre.*1 post.*1 p.2); simpl.
  - done.
  - by rewrite fmap_app, fmap_cons.
  - intros Hp. apply (Hpre _ Hp). left.
  - done.
  - rewrite length_fmap, fmap_app, fmap_cons.
    by rewrite <- (length_fmap snd pre), list_lookup_middle.
Qed.

Lemma MethodDesc_then_GetParam_witness :
  GetParam "efSearch" "" true
    (mkAnyParamManager (mkAnyParams ["M"; "efSearch"] ["16"; "100"]) ∅)
  = mkRun [{| severity := INFO; text := trace "efSearch" "100" |}]
      (Returned ("100",
                 mkAnyParamManager (mkAnyParams ["M"; "efSearch"] ["16"; "100"])
                   ({["efSearch"]} ∪ ∅))).
Proof.
  refine (MethodDesc_then_GetParam SplitStr ["M=16"; "efSearch=100"]
            (mkAnyParams ["M"; "efSearch"] ["16"; "100"]) "efSearch=100"
            ("efSearch", "100") "" true ∅ eq_refl _ eq_refl).
  right. left.
Defined.

(** ** From an extraction to the getters *)

Section Extracted_values.
Context {T : Type} `{ParamType T}.

(** The loop of a getter, for a name that is kept, over the entries kept
    and over all the entries. *)
Lemma GetParam_loop_kept (ExceptList : list string) Name Names Values
    before1 before2 bFound (Value : T) :
  Name ∉ ExceptList → length Names = length Values →
  GetParam_loop Name
    (before1 ++ (filter (λ entry, entry.1 ∉ ExceptList) (zip Names Values)).*2)
    (length before1)
    (filter (λ entry, entry.1 ∉ ExceptList) (zip Names Values)).*1 bFound Value
  = GetParam_loop Name (before2 ++ Values) (length before2) Names bFound Value.
Proof.
  intros Hkept. revert Values before1 before2 bFound Value.
  induction Names as [|n Names IH];
    intros [|val Values] before1 before2 bFound Value Hlen;
    try discriminate Hlen; [done|].
  simpl in Hlen. injection Hlen as Hlen.
  assert (∀ b v before, GetParam_loop Name
      (before ++ (filter (λ entry, entry.1 ∉ ExceptList) (zip Names Values)).*2)
      (length before)
      (filter (λ entry, entry.1 ∉ ExceptList) (zip Names Values)).*1 b v
    = GetParam_loop Name (before2 ++ val :: Values) (S (length before2))
        Names b v) as Hrest.
  { intros b v before. rewrite (IH Values before (before2 ++ [val])) by done.
    rewrite <- app_assoc, length_app. simpl. by rewrite Nat.add_1_r. }
  simpl. rewrite filter_cons. simpl.
  destruct (decide (n ∉ ExceptList)) as [Hn|Hn].
  - rewrite !fmap_cons. simpl.
    destruct (decide (Name = n)) as [->|Hne].
    + rewrite !(at_index_Some _ _ val), !bind_mret
        by by rewrite lookup_app_r, Nat.sub_diag by done.
      apply bind_ext. intros v.
      rewrite <- (Hrest true v (before1 ++ [val])).
      rewrite <- app_assoc, length_app. simpl. by rewrite Nat.add_1_r.
    + rewrite <- (Hrest bFound Value (before1 ++ [val])).
      rewrite <- app_assoc, length_app. simpl. by rewrite Nat.add_1_r.
  - rewrite decide_False by (intros ->; by apply dec_stable in Hn).
    apply Hrest.
Qed.

Lemma GetParam_same_loop Name (Value : T) bRequired thisA thisB :
  GetParam_loop Name (ParamValues (params thisA)) 0 (ParamNames (params thisA))
    false Value
  = GetParam_loop Name (ParamValues (params thisB)) 0 (ParamNames (params thisB))
      false Value →
  log (GetParam Name Value bRequired thisA)
  = log (GetParam Name Value bRequired thisB) ∧
  (∀ x this', outcome (GetParam Name Value bRequired thisB) = Returned (x, this') →
     outcome (GetParam Name Value bRequired thisA)
     = Returned (x, mkAnyParamManager (params thisA) ({[Name]} ∪ seen thisA))) ∧
  (∀ f, outcome (GetParam Name Value bRequired thisB) = Aborted f →
     outcome (GetParam Name Value bRequired thisA) = Aborted f).
Proof.
  intros Hloop. unfold GetParam. rewrite Hloop.
  destruct (GetParam_loop Name (ParamValues (params thisB)) 0
              (ParamNames (params thisB)) false Value) as [l [[b v]| |]];
    [|done..].
  rewrite !(bind_unfold (mkRun l _)). unfold Log.bind. simpl.
  destruct (negb b && bRequired); [done|].
  rewrite !bind_mret, !bind_LOG. simpl.
  split_and!; [done| |done]. intros x this' Hret.
  rewrite outcome_mret in *. by injection Hret as -> _.
Qed.

End Extracted_values.

(** X17.  An extraction hands the parameters it keeps to the nested
    consumer as they are: over a managed set with as many values as names,
    a getter for a name that is not on the exception list does over the
    extracted set what it does over the managed set, with the same lines
    logged, the same value returned or the same failure. *)
Theorem ExtractParametersExcept_then_GetParam {T : Type} `{ParamType T}
    (ExceptList : list string) (this : AnyParamManager)
    (Name : string) (Value : T) (bRequired : bool) (seen' : gset string) :
  length (ParamNames (params this)) = length (ParamValues (params this)) →
  Name ∉ ExceptList →
  ∃ ps this',
    ExtractParametersExcept ExceptList this = mret (ps, this') ∧
    log (GetParam Name Value bRequired (mkAnyParamManager ps seen'))
    = log (GetParam Name Value bRequired this) ∧
    (∀ x this'',
       outcome (GetParam Name Value bRequired this) = Returned (x, this'') →
       outcome (GetParam Name Value bRequired (mkAnyParamManager ps seen'))
       = Returned (x, mkAnyParamManager ps ({[Name]} ∪ seen'))) ∧
    (∀ f, outcome (GetParam Name Value bRequired this) = Aborted f →
       outcome (GetParam Name Value bRequired (mkAnyParamManager ps seen'))
       = Aborted f).
Proof.
  intros Hlen Hkept. eexists _, _.
  split; [by apply ExtractParametersExcept_kept|].
  apply (GetParam_same_loop Name Value bRequired
           (mkAnyParamManager
              (mkAnyParams (kept ExceptList (params this)).*1
                 (kept ExceptList (params this)).*2) seen') this).
  simpl. unfold kept.
  apply (GetParam_loop_kept ExceptList Name _ _ [] []); done.
Qed.

Lemma ExtractParametersExcept_then_GetParam_witness :
  ∃ ps this',
    ExtractParametersExcept ["a"]
      (mkAnyParamManager (mkAnyParams ["a"; "b"; "c"] ["1"; "2"; "3"]) ∅)
    = mret (ps, this') ∧
    log (GetParam "c" 0%Z true (mkAnyParamManager ps ∅))
    = log (GetParam "c" 0%Z true
             (mkAnyParamManager (mkAnyParams ["a"; "b"; "c"] ["1"; "2"; "3"]) ∅)) ∧
    (∀ x this'',
       outcome (GetParam "c" 0%Z true
                  (mkAnyParamManager
                     (mkAnyParams ["a"; "b"; "c"] ["1"; "2"; "3"]) ∅))
       = Returned (x, this'') →
       outcome (GetParam "c" 0%Z true (mkAnyParamManager ps ∅))
       = Returned (x, mkAnyParamManager ps ({["c"]} ∪ ∅))) ∧
    (∀ f, outcome (GetParam "c" 0%Z true
                     (mkAnyParamManager
                        (mkAnyParams ["a"; "b"; "c"] ["1"; "2"; "3"]) ∅))
          = Aborted f →
       outcome (GetParam "c" 0%Z true (mkAnyParamManager ps ∅)) = Aborted f).
Proof.
  refine (ExtractParametersExcept_then_GetParam ["a"]
            (mkAnyParamManager (mkAnyParams ["a"; "b"; "c"] ["1"; "2"; "3"]) ∅)
            "c" 0%Z true ∅ eq_refl _).
  intros Hin%list_elem_of_singleton. discriminate.
Defined.
